(** * /proc support of the DRM core: linux-core/drm_proc.c

    A shallow embedding of the read_proc callbacks of drm_proc.c and of
    the registration code around them, followed by the properties of
    the paginated read protocol, of the individual reports and of the
    registration rollback. *)

From Stdlib Require Import Ascii String DecimalString HexadecimalString.
From Stdlib Require Import ZArith List Lia Bool.
Import ListNotations.
Local Open Scope Z_scope.

(** ** Text and printf conversions *)

(** The output buffer is a C string; it is kept as the list of its
    bytes up to (not including) the terminating NUL. *)
Definition text := list ascii.

Definition lit (s : string) : text := list_ascii_of_string s.
Definition tlen (t : text) : Z := Z.of_nat (length t).
Definition nl : text := ["010"%char].
Definition tab : text := ["009"%char].

Fixpoint text_eqb (a b : text) : bool :=
  match a, b with
  | [], [] => true
  | x :: a', y :: b' => Ascii.eqb x y && text_eqb a' b'
  | _, _ => false
  end.

Module Printf.

Definition pad_left (c : ascii) (width : nat) (t : text) : text :=
  repeat c (width - length t) ++ t.

(** signed and unsigned decimal, lower-case hexadecimal *)
Definition dec (z : Z) : text :=
  lit (DecimalString.NilZero.string_of_int (Z.to_int z)).
Definition udec (z : Z) : text :=
  lit (DecimalString.NilZero.string_of_uint (N.to_uint (Z.to_N z))).
Definition hex (z : Z) : text :=
  lit (HexadecimalString.NilZero.string_of_uint (N.to_hex_uint (Z.to_N z))).

(** [%<w>d], [%<w>u], [%0<w>x], [%<w>.<p>s], [%c] *)
Definition fmt_d (w : nat) (z : Z) : text := pad_left " " w (dec z).
Definition fmt_u (w : nat) (z : Z) : text := pad_left " " w (udec z).
Definition fmt_0x (w : nat) (z : Z) : text := pad_left "0" w (hex z).
Definition fmt_s (w p : nat) (s : text) : text := pad_left " " w (firstn p s).
Definition fmt_c (c : ascii) : text := [c].

End Printf.
Import Printf.

(** ** C integer types *)

Definition int_wrap (z : Z) : Z := (z + 2 ^ 31) mod 2 ^ 32 - 2 ^ 31.
Definition to_uint (z : Z) : Z := z mod 2 ^ 32.

(** ** Device state read by the reports

    Every field holds the C value of the member it stands for; an
    [atomic_t] is the int it contains. *)

Record drm_map := {
  map_offset : Z;      (* unsigned long *)
  map_size : Z;        (* unsigned long *)
  map_type : Z;        (* enum drm_map_type *)
  map_flags : Z;       (* enum drm_map_flags *)
  map_mtrr : Z         (* int *)
}.

Record drm_map_list := {
  r_map : option drm_map;   (* NULL is None *)
  user_token : Z
}.

Record drm_queue := {
  q_flags : Z;
  use_count : Z;            (* atomic_t *)
  finalization : Z;         (* atomic_t *)
  block_count : Z;          (* atomic_t *)
  block_read : Z;           (* atomic_t *)
  block_write : Z;          (* atomic_t *)
  read_queue_active : bool; (* waitqueue_active(&q->read_queue) *)
  write_queue_active : bool;
  flush_queue_active : bool;
  waitlist_bufcount : Z     (* DRM_BUFCOUNT(&q->waitlist) *)
}.

Record drm_buf_entry := {
  buf_size : Z;
  buf_count : Z;
  freelist_count : Z;       (* atomic_t freelist.count *)
  seg_count : Z;
  page_order : Z
}.

(** [bufs] is the array [bufs[DRM_MAX_ORDER + 1]]; [buflist] holds, for
    each of the [dma->buf_count] buffers, its [list] member. *)
Record drm_device_dma := {
  bufs : list drm_buf_entry;
  buflist : list Z
}.

Record drm_fence_manager := { fm_initialized : bool; fm_count : Z }.
Record drm_buffer_manager := {
  bm_initialized : bool; bm_count : Z; cur_pages : Z
}.

(** The five values drm_query_memctl stores through its arguments
    (uint64_t each). *)
Record drm_memctl := {
  used_mem : Z; used_emer : Z; low_mem : Z; high_mem : Z; emer_mem : Z
}.

Record drm_file := {
  authenticated : bool;
  file_minor_index : Z;
  pid : Z;
  uid : Z;
  magic : Z;
  ioctl_count : Z
}.

Record drm_gem_object := {
  obj_name : Z;
  obj_size : Z;             (* size_t *)
  handlecount : Z;          (* atomic_t handlecount.refcount *)
  refcount : Z              (* atomic_t refcount.refcount *)
}.

Record drm_device := {
  driver_name : text;       (* dev->driver->pci_driver.name *)
  pci_name : text;          (* pci_name(dev->pdev) *)
  unique : option text;
  maplist : list drm_map_list;
  queuelist : list drm_queue;   (* queuelist[0 .. queue_count-1] *)
  dma : option drm_device_dma;
  fm : drm_fence_manager;
  bm : drm_buffer_manager;
  memctl : drm_memctl;
  filelist : list drm_file;
  object_name_idr : list (Z * drm_gem_object);
  object_count : Z;
  object_memory : Z;
  pin_count : Z;
  pin_memory : Z;
  gtt_memory : Z;
  gtt_total : Z
}.

(** ** The state of one read_proc call *)

(** What happens to a queue during the queues report. *)
Inductive q_event :=
| QInc (i : nat)      (* atomic_inc(&q->use_count) *)
| QRead (i : nat)     (* the fields of queue i are read and formatted *)
| QDec (i : nat).     (* atomic_dec(&q->use_count) *)

(** [buf], [*eof], [*start] and the local [len] of a callback, the
    queue array the queues report updates in place, and two histories
    kept for the proofs only: every sprintf as (position, bytes
    written) and the queue events. *)
Record proc_ctx := {
  buf : text;
  len : Z;
  eof : bool;
  start : option Z;
  writes : list (Z * text);
  queues : list drm_queue;
  events : list q_event
}.

Definition fresh_ctx (qs : list drm_queue) : proc_ctx :=
  {| buf := []; len := 0; eof := false; start := None; writes := [];
     queues := qs; events := [] |}.

Definition set_eof (b : bool) (c : proc_ctx) : proc_ctx :=
  {| buf := buf c; len := len c; eof := b; start := start c;
     writes := writes c; queues := queues c; events := events c |}.

Definition set_start (o : Z) (c : proc_ctx) : proc_ctx :=
  {| buf := buf c; len := len c; eof := eof c; start := Some o;
     writes := writes c; queues := queues c; events := events c |}.

Definition set_len (n : Z) (c : proc_ctx) : proc_ctx :=
  {| buf := buf c; len := n; eof := eof c; start := start c;
     writes := writes c; queues := queues c; events := events c |}.

(** [sprintf(&buf[pos], ...)] producing [s]: the bytes before [pos]
    stay, [s] follows them. *)
Definition poke (pos : Z) (s : text) (b : text) : text :=
  firstn (Z.to_nat pos) b ++ s.

Definition sprintf_at (pos : Z) (s : text) (c : proc_ctx) : proc_ctx :=
  {| buf := poke pos s (buf c); len := len c; eof := eof c;
     start := start c; writes := writes c ++ [(pos, s)];
     queues := queues c; events := events c |}.

Definition set_queues (qs : list drm_queue) (c : proc_ctx) : proc_ctx :=
  {| buf := buf c; len := len c; eof := eof c; start := start c;
     writes := writes c; queues := qs; events := events c |}.

Definition log_event (e : q_event) (c : proc_ctx) : proc_ctx :=
  {| buf := buf c; len := len c; eof := eof c; start := start c;
     writes := writes c; queues := queues c; events := events c ++ [e] |}.

(** A callback body either goes on to its next statement or has
    executed [return ret]. *)
Inductive flow (A : Type) :=
| Next (a : A) (c : proc_ctx)
| Return (ret : Z) (c : proc_ctx).
Arguments Next {A} a c.
Arguments Return {A} ret c.

Definition proc (A : Type) := proc_ctx -> flow A.

Definition skip : proc unit := fun c => Next tt c.
Definition bind {A B} (m : proc A) (f : A -> proc B) : proc B :=
  fun c => match m c with
           | Next a c' => f a c'
           | Return r c' => Return r c'
           end.
Definition return_ {A} (r : Z) : proc A := fun c => Return r c.
Definition modify (f : proc_ctx -> proc_ctx) : proc unit :=
  fun c => Next tt (f c).

Notation "m1 ;; m2" := (bind m1 (fun _ => m2))
  (at level 61, right associativity).

Fixpoint for_each {A} (l : list A) (body : A -> proc unit) : proc unit :=
  match l with
  | [] => skip
  | a :: l' => body a ;; for_each l' body
  end.

(** The value a callback hands back: its return value and the state it
    leaves. *)
Definition call (m : proc Z) (c : proc_ctx) : Z * proc_ctx :=
  match m c with
  | Next r c' => (r, c')
  | Return r c' => (r, c')
  end.

(** ** The callbacks *)

Definition null_queue : drm_queue :=
  {| q_flags := 0; use_count := 0; finalization := 0; block_count := 0;
     block_read := 0; block_write := 0; read_queue_active := false;
     write_queue_active := false; flush_queue_active := false;
     waitlist_bufcount := 0 |}.

Definition null_entry : drm_buf_entry :=
  {| buf_size := 0; buf_count := 0; freelist_count := 0; seg_count := 0;
     page_order := 0 |}.

Definition add_use_count (d : Z) (q : drm_queue) : drm_queue :=
  {| q_flags := q_flags q; use_count := int_wrap (use_count q + d);
     finalization := finalization q; block_count := block_count q;
     block_read := block_read q; block_write := block_write q;
     read_queue_active := read_queue_active q;
     write_queue_active := write_queue_active q;
     flush_queue_active := flush_queue_active q;
     waitlist_bufcount := waitlist_bufcount q |}.

Fixpoint update_queue (i : nat) (f : drm_queue -> drm_queue)
    (qs : list drm_queue) : list drm_queue :=
  match qs, i with
  | [], _ => []
  | q :: qs', O => f q :: qs'
  | q :: qs', S i' => q :: update_queue i' f qs'
  end.

Definition atomic_inc_use_count (i : nat) (c : proc_ctx) : proc_ctx :=
  log_event (QInc i) (set_queues (update_queue i (add_use_count 1) (queues c)) c).

Definition atomic_dec_use_count (i : nat) (c : proc_ctx) : proc_ctx :=
  log_event (QDec i) (set_queues (update_queue i (add_use_count (-1)) (queues c)) c).

Definition indexed {A} (l : list A) : list (nat * A) :=
  combine (seq 0 (length l)) l.

(** [struct drm_gem_name_info_data]; its [buf] member is the callback's
    [buf] itself, so what is written through it lands in [buf] of the
    call state. *)
Record drm_gem_name_info_data := {
  nid_len : Z;
  nid_eof : bool
}.

(** [idr_for_each]: the callback is run on every entry, in the order of
    the registry, until one run returns nonzero. *)
Fixpoint idr_for_each {S : Type} (idr : list (Z * drm_gem_object))
    (fn : Z -> drm_gem_object -> S -> Z * S) (data : S) : Z * S :=
  match idr with
  | [] => (0, data)
  | (id, ptr) :: rest =>
      let (r, data') := fn id ptr data in
      if r =? 0 then idr_for_each rest fn data' else (r, data')
  end.

Section DrmProc.

(** Constants of the kernel and of drmP.h, which are not among the
    sources: the page shift, the width of a long, the shared limit
    of the reports and the largest allocation order. *)
Variable PAGE_SHIFT : Z.
Variable BITS_PER_LONG : Z.
Variable DRM_PROC_LIMIT : Z.
Variable DRM_MAX_ORDER : nat.

(** What the macros DRM_PROC_PRINT and DRM_PROC_PRINT_RET of drmP.h do
    once [len] has passed the limit.  drmP.h is not among the sources,
    and the two things known about the macros point in two directions:
    by the specification these callbacks build their whole text and
    the only test on its length is the one in the last lines of the
    callback ([false]: the macros are the sprintf and nothing else);
    the call at line 319 hands DRM_PROC_PRINT_RET a statement to run
    before a return, which only a macro that can leave the callback
    needs ([true]).  Both are covered: the choice is a parameter. *)
Variable DRM_PROC_RETURNS : bool.

(** [1UL << PAGE_SHIFT] *)
Definition PAGE_SIZE : Z := Z.shiftl 1 PAGE_SHIFT.

Definition to_ulong (z : Z) : Z := z mod 2 ^ BITS_PER_LONG.
Definition to_long (z : Z) : Z :=
  (z + 2 ^ (BITS_PER_LONG - 1)) mod 2 ^ BITS_PER_LONG
  - 2 ^ (BITS_PER_LONG - 1).

(** Modelled from the spec: the statement
    [len += sprintf(&buf[len], fmt, args)] of the macros DRM_PROC_PRINT
    and DRM_PROC_PRINT_RET of drmP.h, which is not among the sources;
    it is the append-formatted-text operation of the output buffer. *)
Definition proc_sprintf (s : text) : proc unit :=
  fun c => Next tt (set_len (len c + tlen s) (sprintf_at (len c) s c)).

(** Modelled from the spec: what follows the sprintf in both macros.
    With [DRM_PROC_RETURNS = false] nothing follows it, as the
    specification has it (every generator but gem_names builds its
    text fully).  With [DRM_PROC_RETURNS = true] the macro leaves the
    callback when [len] has passed the shared limit: it runs the
    statement DRM_PROC_PRINT_RET was given ([cleanup]; line 319 gives
    the atomic_dec of the use count), sets [*eof] and returns
    [len - offset], as the last lines of a callback do. *)
Definition proc_limit_check (offset : Z)
    (cleanup : proc_ctx -> proc_ctx) : proc unit :=
  fun c => if DRM_PROC_RETURNS && (len c >? DRM_PROC_LIMIT)
           then Return (len c - offset) (set_eof true (cleanup c))
           else Next tt c.

(** Modelled from the spec: [DRM_PROC_PRINT_RET(ret, fmt, args)], the
    two statements above with [ret] run before a return. *)
Definition DRM_PROC_PRINT_RET (offset : Z)
    (cleanup : proc_ctx -> proc_ctx) (s : text) : proc unit :=
  proc_sprintf s ;; proc_limit_check offset cleanup.

(** Modelled from the spec: [DRM_PROC_PRINT(fmt, args)], the same with
    nothing to run before a return. *)
Definition DRM_PROC_PRINT (offset : Z) (s : text) : proc unit :=
  proc_sprintf s ;; proc_limit_check offset (fun c => c).

(** The first lines of every callback but gem_names:
    [if (offset > DRM_PROC_LIMIT) { *eof = 1; return 0; }
     *start = &buf[offset]; *eof = 0;] *)
Definition proc_head (offset : Z) : proc unit :=
  fun c => if offset >? DRM_PROC_LIMIT
           then Return 0 (set_eof true c)
           else Next tt (set_eof false (set_start offset c)).

(** The last lines of every callback:
    [if (len > request + offset) return request;
     *eof = 1; return len - offset;] *)
Definition proc_tail (n offset request : Z) : proc Z :=
  fun c => if n >? request + offset
           then Return request c
           else Return (n - offset) (set_eof true c).

(** *** name *)
Definition drm_name_info (dev : drm_device) (offset request : Z) : proc Z :=
  modify (set_len 0) ;;
  proc_head offset ;;
  match unique dev with
  | Some u =>
      DRM_PROC_PRINT offset
        (driver_name dev ++ lit " " ++ pci_name dev ++ lit " " ++ u ++ nl)
  | None =>
      DRM_PROC_PRINT offset (driver_name dev ++ lit " " ++ pci_name dev ++ nl)
  end ;;
  fun c => proc_tail (len c) offset request c.

(** *** vm *)
Definition types : list text :=
  [lit "FB"; lit "REG"; lit "SHM"; lit "AGP"; lit "SG"; lit "PCI"].

Definition vm_header : text :=
  lit "slot" ++ tab ++ lit " offset" ++ tab ++ lit "      size type flags"
  ++ tab ++ lit " address mtrr" ++ nl ++ nl.

Definition vm_type (map : drm_map) : text :=
  if (map_type map <? 0) || (map_type map >? 5) then lit "??"
  else nth (Z.to_nat (map_type map)) types [].

(** ["%4d 0x%08lx 0x%08lx %4.4s  0x%02x 0x%08lx "] *)
Definition vm_row (i : Z) (map : drm_map) (r_list : drm_map_list) : text :=
  fmt_d 4 i ++ lit " 0x" ++ fmt_0x 8 (to_ulong (map_offset map))
  ++ lit " 0x" ++ fmt_0x 8 (to_ulong (map_size map))
  ++ lit " " ++ fmt_s 4 4 (vm_type map)
  ++ lit "  0x" ++ fmt_0x 2 (to_uint (map_flags map))
  ++ lit " 0x" ++ fmt_0x 8 (to_ulong (user_token r_list)) ++ lit " ".

Fixpoint vm_maps (offset : Z) (l : list drm_map_list) (i : Z) : proc unit :=
  match l with
  | [] => skip
  | r_list :: rest =>
      match r_map r_list with
      | None => vm_maps offset rest i
      | Some map =>
          DRM_PROC_PRINT offset (vm_row i map r_list) ;;
          (if map_mtrr map <? 0
           then DRM_PROC_PRINT offset (lit "none" ++ nl)
           else DRM_PROC_PRINT offset (fmt_d 4 (map_mtrr map) ++ nl)) ;;
          vm_maps offset rest (int_wrap (i + 1))
      end
  end.

Definition drm__vm_info (dev : drm_device) (offset request : Z) : proc Z :=
  modify (set_len 0) ;;
  proc_head offset ;;
  DRM_PROC_PRINT offset vm_header ;;
  vm_maps offset (maplist dev) 0 ;;
  fun c => proc_tail (len c) offset request c.

(** *** queues *)
Definition queues_header : text :=
  lit "  ctx/flags   use   fin" ++ lit "   blk/rw/rwf  wait    flushed"
  ++ tab ++ lit "   queued" ++ lit "      locks" ++ nl ++ nl.

Definition flag_char (b : bool) (y n : ascii) : text :=
  fmt_c (if b then y else n).

(** ["%5d/0x%03x %5d %5d %5d/%c%c/%c%c%c %5Zd\n"] *)
Definition queues_row (i : nat) (q : drm_queue) : text :=
  fmt_d 5 (Z.of_nat i) ++ lit "/0x" ++ fmt_0x 3 (to_uint (q_flags q))
  ++ lit " " ++ fmt_d 5 (use_count q)
  ++ lit " " ++ fmt_d 5 (finalization q)
  ++ lit " " ++ fmt_d 5 (block_count q)
  ++ lit "/" ++ flag_char (negb (block_read q =? 0)) "r" "-"
  ++ flag_char (negb (block_write q =? 0)) "w" "-"
  ++ lit "/" ++ flag_char (read_queue_active q) "r" "-"
  ++ flag_char (write_queue_active q) "w" "-"
  ++ flag_char (flush_queue_active q) "f" "-"
  ++ lit " " ++ fmt_d 5 (waitlist_bufcount q) ++ nl.

(** One turn of the loop over [dev->queuelist]; [q] is the queue at
    index [i] of the array in the call state. *)
Definition queues_one (offset : Z) (i : nat) : proc unit :=
  modify (atomic_inc_use_count i) ;;
  modify (log_event (QRead i)) ;;
  (fun c => DRM_PROC_PRINT_RET offset (atomic_dec_use_count i)
              (queues_row i (nth i (queues c) null_queue)) c) ;;
  modify (atomic_dec_use_count i).

Definition drm__queues_info (offset request : Z) : proc Z :=
  modify (set_len 0) ;;
  proc_head offset ;;
  DRM_PROC_PRINT offset queues_header ;;
  (fun c => for_each (seq 0 (length (queues c))) (queues_one offset) c) ;;
  fun c => proc_tail (len c) offset request c.

(** *** bufs *)
Definition bufs_header : text :=
  lit " o     size count  free" ++ tab ++ lit " segs pages    kB" ++ nl ++ nl.

(** [seg_count * (1 << page_order)], an int *)
Definition bufs_pages (e : drm_buf_entry) : Z :=
  int_wrap (seg_count e * int_wrap (Z.shiftl 1 (page_order e))).

(** [(seg_count * (1 << page_order)) * PAGE_SIZE / 1024]: the int is
    converted to unsigned long for the product with PAGE_SIZE, the
    quotient is printed with [%ld]. *)
Definition bufs_kb (e : drm_buf_entry) : Z :=
  to_long (to_ulong (to_ulong (bufs_pages e) * PAGE_SIZE) / 1024).

(** ["%2d %8d %5d %5d %5d %5d %5ld\n"] *)
Definition bufs_row (i : nat) (e : drm_buf_entry) : text :=
  fmt_d 2 (Z.of_nat i) ++ lit " " ++ fmt_d 8 (buf_size e)
  ++ lit " " ++ fmt_d 5 (buf_count e)
  ++ lit " " ++ fmt_d 5 (freelist_count e)
  ++ lit " " ++ fmt_d 5 (seg_count e)
  ++ lit " " ++ fmt_d 5 (bufs_pages e)
  ++ lit " " ++ fmt_d 5 (bufs_kb e) ++ nl.

(** [if (b) DRM_PROC_PRINT(...);] has no braces: only the sprintf of the
    macro is under the [if], the test of [len] follows in any case. *)
Definition DRM_PROC_PRINT_IF (offset : Z) (b : bool) (s : text) : proc unit :=
  (if b then proc_sprintf s else skip) ;; proc_limit_check offset (fun c => c).

(** [if (dma->bufs[i].buf_count) DRM_PROC_PRINT(...)] *)
Definition bufs_order (offset : Z) (dma : drm_device_dma) (i : nat)
    : proc unit :=
  let e := nth i (bufs dma) null_entry in
  DRM_PROC_PRINT_IF offset (negb (buf_count e =? 0)) (bufs_row i e).

(** [if (i && !(i % 32)) DRM_PROC_PRINT("\n");
     DRM_PROC_PRINT(" %d", dma->buflist[i]->list);] *)
Definition bufs_buffer (offset : Z) (il : nat * Z) : proc unit :=
  DRM_PROC_PRINT_IF offset
    (negb (Nat.eqb (fst il) 0) && (Z.of_nat (fst il) mod 32 =? 0)) nl ;;
  DRM_PROC_PRINT offset (lit " " ++ dec (snd il)).

Definition drm__bufs_info (dev : drm_device) (offset request : Z)
    : proc Z :=
  modify (set_len 0) ;;
  match dma dev with
  | None => fun c => Return 0 (set_eof true c)
  | Some dma =>
      proc_head offset ;;
      DRM_PROC_PRINT offset bufs_header ;;
      for_each (seq 0 (S DRM_MAX_ORDER)) (bufs_order offset dma) ;;
      DRM_PROC_PRINT offset nl ;;
      for_each (indexed (buflist dma)) (bufs_buffer offset) ;;
      DRM_PROC_PRINT offset nl ;;
      fun c => proc_tail (len c) offset request c
  end.

(** *** objects *)

(** ["... is %lu pages.\n"] of [(unsigned long) (v >> PAGE_SHIFT)] and
    ["... is %lu bytes.\n"] of [(unsigned long) v] *)
Definition in_pages (what : text) (v : Z) : text :=
  what ++ lit " is " ++ udec (to_ulong (Z.shiftr v PAGE_SHIFT))
  ++ lit " pages." ++ nl.

Definition in_bytes (what : text) (v : Z) : text :=
  what ++ lit " is " ++ udec (to_ulong v) ++ lit " bytes." ++ nl.


Definition drm__objects_info (dev : drm_device) (offset request : Z)
    : proc Z :=
  modify (set_len 0) ;;
  proc_head offset ;;
  DRM_PROC_PRINT offset (lit "Object accounting:" ++ nl ++ nl) ;;
  (if fm_initialized (fm dev)
   then DRM_PROC_PRINT offset
          (lit "Number of active fence objects: " ++ dec (fm_count (fm dev))
           ++ lit "." ++ nl)
   else DRM_PROC_PRINT offset
          (lit "Fence objects are not supported by this driver" ++ nl)) ;;
  (if bm_initialized (bm dev)
   then DRM_PROC_PRINT offset
          (lit "Number of active buffer objects: " ++ dec (bm_count (bm dev))
           ++ lit "." ++ nl ++ nl)
   else skip) ;;
  DRM_PROC_PRINT offset (lit "Memory accounting:" ++ nl ++ nl) ;;
  (if bm_initialized (bm dev)
   then DRM_PROC_PRINT offset
          (lit "Number of locked GATT pages: "
           ++ udec (to_ulong (cur_pages (bm dev))) ++ lit "." ++ nl)
   else DRM_PROC_PRINT offset
          (lit "Buffer objects are not supported by this driver." ++ nl)) ;;
  (if used_mem (memctl dev) >? 16 * PAGE_SIZE
   then DRM_PROC_PRINT offset
          (in_pages (lit "Used object memory") (used_mem (memctl dev)))
   else DRM_PROC_PRINT offset
          (in_bytes (lit "Used object memory") (used_mem (memctl dev)))) ;;
  (if used_emer (memctl dev) >? 16 * PAGE_SIZE
   then DRM_PROC_PRINT offset
          (in_pages (lit "Used emergency memory") (used_emer (memctl dev)))
   else DRM_PROC_PRINT offset
          (in_bytes (lit "Used emergency memory") (used_emer (memctl dev))
           ++ nl)) ;;
  DRM_PROC_PRINT offset
    (in_pages (lit "Soft object memory usage threshold")
       (low_mem (memctl dev))) ;;
  DRM_PROC_PRINT offset
    (in_pages (lit "Hard object memory usage threshold")
       (high_mem (memctl dev))) ;;
  DRM_PROC_PRINT offset
    (in_pages (lit "Emergency root only memory usage threshold")
       (emer_mem (memctl dev))) ;;
  DRM_PROC_PRINT offset nl ;;
  fun c => proc_tail (len c) offset request c.

(** *** clients *)
Definition clients_header : text :=
  lit "a dev" ++ tab ++ lit "pid    uid" ++ tab ++ lit "magic" ++ tab
  ++ lit "  ioctls" ++ nl ++ nl.

(** ["%c %3d %5d %5d %10u %10lu\n"]; the second [%5d] prints the
    unsigned [priv->uid] as an int. *)
Definition clients_row (priv : drm_file) : text :=
  flag_char (authenticated priv) "y" "n"
  ++ lit " " ++ fmt_d 3 (file_minor_index priv)
  ++ lit " " ++ fmt_d 5 (pid priv)
  ++ lit " " ++ fmt_d 5 (int_wrap (uid priv))
  ++ lit " " ++ fmt_u 10 (to_uint (magic priv))
  ++ lit " " ++ fmt_u 10 (to_ulong (ioctl_count priv)) ++ nl.

Definition drm__clients_info (dev : drm_device) (offset request : Z)
    : proc Z :=
  modify (set_len 0) ;;
  proc_head offset ;;
  DRM_PROC_PRINT offset clients_header ;;
  for_each (filelist dev)
    (fun priv => DRM_PROC_PRINT offset (clients_row priv)) ;;
  fun c => proc_tail (len c) offset request c.

(** *** gem_names *)
Definition gem_header : text := lit "  name     size handles refcount" ++ nl.

(** ["%6d%9zd%8d%9d\n"]; [%zd] prints the size_t [obj->size] as the
    signed number of the same width. *)
Definition gem_row (obj : drm_gem_object) : text :=
  fmt_d 6 (obj_name obj) ++ fmt_d 9 (to_long (obj_size obj))
  ++ fmt_d 8 (handlecount obj) ++ fmt_d 9 (refcount obj) ++ nl.

(** The state the callback of the walk works on: the struct behind
    [data], the state of the call, and the kernel log DRM_INFO
    writes to. *)
Record gem_walk := {
  nid : drm_gem_name_info_data;
  ctx : proc_ctx;
  klog : list text
}.

(** [DRM_INFO("name %d size %zd\n", obj->name, obj->size)] *)
Definition gem_info_line (obj : drm_gem_object) : text :=
  lit "name " ++ dec (obj_name obj) ++ lit " size "
  ++ dec (to_long (obj_size obj)) ++ nl.

Definition drm_gem_one_name_info (id : Z) (obj : drm_gem_object)
    (w : gem_walk) : Z * gem_walk :=
  let klog' := klog w ++ [gem_info_line obj] in
  if nid_eof (nid w) then
    (0, {| nid := nid w; ctx := ctx w; klog := klog' |})
  else
    let row := gem_row obj in
    let ctx' := sprintf_at (nid_len (nid w)) row (ctx w) in
    let len' := nid_len (nid w) + tlen row in
    if len' >? DRM_PROC_LIMIT then
      (0, {| nid := {| nid_len := len'; nid_eof := true |};
             ctx := ctx'; klog := klog' |})
    else
      (0, {| nid := {| nid_len := len'; nid_eof := nid_eof (nid w) |};
             ctx := ctx'; klog := klog' |}).

(** The walk of drm_gem_name_info: the header, then the callback on
    every entry of [dev->object_name_idr]. *)
Definition gem_name_walk (dev : drm_device) (c : proc_ctx) (kl : list text)
    : Z * gem_walk :=
  idr_for_each (object_name_idr dev) drm_gem_one_name_info
    {| nid := {| nid_len := tlen gem_header; nid_eof := false |};
       ctx := sprintf_at 0 gem_header c; klog := kl |}.

(** The callback gives its return value, the final [nid] and the state
    of the call; [nid] is not set when the offset is beyond the limit,
    nothing has been written then. *)
Definition drm_gem_name_info (dev : drm_device) (offset request : Z)
    (c : proc_ctx) : Z * drm_gem_name_info_data * proc_ctx :=
  if offset >? DRM_PROC_LIMIT then
    (0, {| nid_len := 0; nid_eof := false |}, set_eof true c)
  else
    let w := snd (gem_name_walk dev c []) in
    let c1 := set_eof false (set_start offset (ctx w)) in
    if nid_len (nid w) >? request + offset then (request, nid w, c1)
    else (nid_len (nid w) - offset, nid w, set_eof true c1).

(** *** gem_objects *)
Definition drm_gem_object_info (dev : drm_device) (offset request : Z)
    : proc Z :=
  modify (set_len 0) ;;
  proc_head offset ;;
  DRM_PROC_PRINT offset (dec (object_count dev) ++ lit " objects" ++ nl) ;;
  DRM_PROC_PRINT offset (dec (object_memory dev) ++ lit " object bytes" ++ nl) ;;
  DRM_PROC_PRINT offset (dec (pin_count dev) ++ lit " pinned" ++ nl) ;;
  DRM_PROC_PRINT offset (dec (pin_memory dev) ++ lit " pin bytes" ++ nl) ;;
  DRM_PROC_PRINT offset (dec (gtt_memory dev) ++ lit " gtt bytes" ++ nl) ;;
  DRM_PROC_PRINT offset (dec (gtt_total dev) ++ lit " gtt total" ++ nl) ;;
  fun c => proc_tail (len c) offset request c.

(** ** The reports and the read interface *)

Inductive report :=
| R_name | R_vm | R_clients | R_queues | R_bufs | R_objects
| R_gem_names | R_gem_objects.

(** [drm_proc_list], without the vma entry of DRM_DEBUG_CODE builds.
  The callback of "mem", drm_mem_info, is defined in another file. *)
Definition drm_proc_list : list (text * option report) :=
[ (lit "name", Some R_name);
  (lit "mem", None);
  (lit "vm", Some R_vm);
  (lit "clients", Some R_clients);
  (lit "queues", Some R_queues);
  (lit "bufs", Some R_bufs);
  (lit "objects", Some R_objects);
  (lit "gem_names", Some R_gem_names);
  (lit "gem_objects", Some R_gem_objects) ].

Definition DRM_PROC_ENTRIES : nat := length drm_proc_list.

Definition entry_name (i : nat) : text := fst (nth i drm_proc_list ([], None)).

(** What one call of a callback leaves behind: its return value, the
  number of bytes it has put into [buf] ([len], or [nid.len] for
  gem_names) and the state of the call. *)
Record read_result := {
rr_ret : Z;
rr_total : Z;
rr_ctx : proc_ctx
}.

Definition of_call (m : proc Z) (c : proc_ctx) : read_result :=
  let (r, c') := call m c in
  {| rr_ret := r; rr_total := len c'; rr_ctx := c' |}.

(** The callback of a report, run on the device with a buffer
    nothing has been written to.  The callbacks registered for vm,
    queues, bufs, objects and clients call the function of the same
    name with two underscores between mutex_lock and mutex_unlock of
    [dev->struct_mutex]; the lock is left out. *)
Definition read_proc (r : report) (dev : drm_device) (offset request : Z)
    : read_result :=
  let c := fresh_ctx (queuelist dev) in
  match r with
  | R_name => of_call (drm_name_info dev offset request) c
  | R_vm => of_call (drm__vm_info dev offset request) c
  | R_clients => of_call (drm__clients_info dev offset request) c
  | R_queues => of_call (drm__queues_info offset request) c
  | R_bufs => of_call (drm__bufs_info dev offset request) c
  | R_objects => of_call (drm__objects_info dev offset request) c
  | R_gem_names =>
      let '(ret, n, c') := drm_gem_name_info dev offset request c in
      {| rr_ret := ret; rr_total := nid_len n; rr_ctx := c' |}
  | R_gem_objects => of_call (drm_gem_object_info dev offset request) c
  end.

(** Modelled from the spec: the bytes the proc layer, which is not
    among the sources, hands to the reader after a call, by the read
    contract [read(offset, maxLength) -> (bytes, endOfReport)]: the
    bytes of [buf] from [*start = &buf[offset]] on, as many as the
    callback has returned and never more than were asked for. *)
Definition read_bytes (res : read_result) (offset request : Z) : text :=
  firstn (Z.to_nat (Z.min (rr_ret res) request))
    (skipn (Z.to_nat offset) (buf (rr_ctx res))).

(** What the reader gets from one call: these bytes and [*eof].  The
    proc layer takes a negative return value of a callback for an
    error code, not for a number of bytes. *)
Inductive read_outcome :=
| Data (bytes : text) (end_of_report : bool)
| Fault (code : Z).

Definition read (r : report) (dev : drm_device) (offset request : Z)
    : read_outcome :=
  let res := read_proc r dev offset request in
  if rr_ret res <? 0 then Fault (rr_ret res)
  else Data (read_bytes res offset request) (eof (rr_ctx res)).

(** A reader that asks for [k] bytes at offsets 0, k, 2k, ... until a
    call signals the end of the report, and joins what it was given. *)
Fixpoint read_chunks (fuel : nat) (r : report) (dev : drm_device)
    (k offset : Z) : option text :=
  match fuel with
  | O => None
  | S fuel' =>
      match read r dev offset k with
      | Fault _ => None
      | Data bytes true => Some bytes
      | Data bytes false =>
          match read_chunks fuel' r dev k (offset + k) with
          | Some rest => Some (bytes ++ rest)
          | None => None
          end
      end
  end.

(** The length of a report: the bytes the callback has written when it
    is asked for the start of the report. *)
Definition total_length (r : report) (dev : drm_device) : Z :=
  rr_total (read_proc r dev 0 0).


(** ** Registration: drm_proc_init and drm_proc_cleanup *)

(** The part of procfs the two functions act on: the directories under
    the DRI root, the entries that exist, each under the name of its
    directory, and the history of remove_proc_entry calls.  Removing a
    directory does not remove the entries inside it. *)
Record proc_fs := {
  dirs : list text;
  entries : list (text * text);
  removals : list (option text * text)   (* (parent, name); None is the root *)
}.

(** [minor->dev_root] is the pointer proc_mkdir has returned; it is
    given here by the name of the directory it points to, which is all
    the two functions use it for while the directory exists.  What a
    pointer to a directory that has been removed does is not
    modelled. *)
Record drm_minor := {
  minor_index : Z;
  dev_root : option text      (* NULL is None *)
}.

Definition proc_mkdir (name : text) (fs : proc_fs) : proc_fs :=
  {| dirs := dirs fs ++ [name]; entries := entries fs;
     removals := removals fs |}.

Definition create_proc_entry (name dir : text) (fs : proc_fs) : proc_fs :=
  {| dirs := dirs fs; entries := entries fs ++ [(dir, name)];
     removals := removals fs |}.

Definition remove_proc_entry (name : text) (parent : option text)
    (fs : proc_fs) : proc_fs :=
  match parent with
  | Some dir =>
      {| dirs := dirs fs;
         entries :=
           filter (fun e => negb (text_eqb (fst e) dir && text_eqb (snd e) name))
                  (entries fs);
         removals := removals fs ++ [(parent, name)] |}
  | None =>
      {| dirs := filter (fun d => negb (text_eqb d name)) (dirs fs);
         entries := entries fs;
         removals := removals fs ++ [(parent, name)] |}
  end.

(** The loop of drm_proc_init from index [i] on.  [create_ok i] says
    whether the call of create_proc_entry for entry [i] succeeds. *)
Fixpoint proc_init_entries (create_ok : nat -> bool) (name : text)
    (todo : list nat) (minor : drm_minor) (fs : proc_fs)
    : Z * drm_minor * proc_fs :=
  match todo with
  | [] => (0, minor, fs)
  | i :: rest =>
      if create_ok i then
        proc_init_entries create_ok name rest minor
          (create_proc_entry (entry_name i) name fs)
      else
        let fs1 :=
          fold_left
            (fun fs' (j : nat) =>
               remove_proc_entry (entry_name i) (dev_root minor) fs')
            (seq 0 i) fs in
        let fs2 := remove_proc_entry name None fs1 in
        (-1, {| minor_index := minor_index minor; dev_root := None |}, fs2)
  end.

Definition drm_proc_init (mkdir_ok : bool) (create_ok : nat -> bool)
    (minor : drm_minor) (minor_id : Z) (fs : proc_fs)
    : Z * drm_minor * proc_fs :=
  let name := dec minor_id in
  if mkdir_ok then
    proc_init_entries create_ok name (seq 0 DRM_PROC_ENTRIES)
      {| minor_index := minor_index minor; dev_root := Some name |}
      (proc_mkdir name fs)
  else
    (-1, {| minor_index := minor_index minor; dev_root := None |}, fs).

(** [root_present] is false when [root] is NULL. *)
Definition drm_proc_cleanup (minor : drm_minor) (root_present : bool)
    (fs : proc_fs) : Z * proc_fs :=
  if negb root_present
     || match dev_root minor with None => true | Some _ => false end
  then (0, fs)
  else
    let fs1 :=
      fold_left
        (fun fs' (i : nat) =>
           remove_proc_entry (entry_name i) (dev_root minor) fs')
        (seq 0 DRM_PROC_ENTRIES) fs in
    (0, remove_proc_entry (dec (minor_index minor)) None fs1).

(** ** The text of the reports, item by item

    The functions below give, for each report, the formatted items its
    callback passes to the macro, in order; they are what the callbacks
    are compared with. *)

(** The items that get written when [items] are printed one after the
    other from length [n] on: all of them ([false]), or those up to
    and including the first one that takes the length past the limit
    ([true]). *)
Fixpoint printed (n : Z) (items : list text) : list text * bool :=
  match items with
  | [] => ([], false)
  | s :: rest =>
      if n + tlen s >? DRM_PROC_LIMIT then ([s], true)
      else let (p, o) := printed (n + tlen s) rest in (s :: p, o)
  end.

Fixpoint positions (n : Z) (items : list text) : list (Z * text) :=
  match items with
  | [] => []
  | s :: rest => (n, s) :: positions (n + tlen s) rest
  end.

(** The state of a call after [items] have been written from position
    [n] on, and after the macro has added their lengths to [len]. *)
Definition written (n : Z) (items : list text) (c : proc_ctx) : proc_ctx :=
  {| buf := buf c ++ concat items; len := len c; eof := eof c;
     start := start c; writes := writes c ++ positions n items;
     queues := queues c; events := events c |}.

Definition emit (items : list text) (c : proc_ctx) : proc_ctx :=
  set_len (len c + tlen (concat items)) (written (len c) items c).

Definition name_items (dev : drm_device) : list text :=
  [ match unique dev with
    | Some u => driver_name dev ++ lit " " ++ pci_name dev ++ lit " " ++ u ++ nl
    | None => driver_name dev ++ lit " " ++ pci_name dev ++ nl
    end ].

Fixpoint vm_rows (l : list drm_map_list) (i : Z) : list text :=
  match l with
  | [] => []
  | r_list :: rest =>
      match r_map r_list with
      | None => vm_rows rest i
      | Some map =>
          vm_row i map r_list
          :: (if map_mtrr map <? 0 then lit "none" ++ nl
              else fmt_d 4 (map_mtrr map) ++ nl)
          :: vm_rows rest (int_wrap (i + 1))
      end
  end.

Definition vm_items (dev : drm_device) : list text :=
  vm_header :: vm_rows (maplist dev) 0.

(** The row of queue [i] shows the queue with its use count raised. *)
Definition queues_rows (qs : list drm_queue) (idx : list nat) : list text :=
  map (fun i => queues_row i (add_use_count 1 (nth i qs null_queue))) idx.

Definition queues_items (dev : drm_device) : list text :=
  queues_header
  :: queues_rows (queuelist dev) (seq 0 (length (queuelist dev))).

(** The allocation orders 0 .. DRM_MAX_ORDER with their entries. *)
Definition bufs_orders (d : drm_device_dma) : list (nat * drm_buf_entry) :=
  map (fun i => (i, nth i (bufs d) null_entry)) (seq 0 (S DRM_MAX_ORDER)).

(** One row for every order whose buffer count is not zero. *)
Definition bufs_rows (d : drm_device_dma) : list text :=
  map (fun ie => bufs_row (fst ie) (snd ie))
    (filter (fun ie => negb (buf_count (snd ie) =? 0)) (bufs_orders d)).

Definition bufs_buffers (d : drm_device_dma) : list text :=
  flat_map
    (fun il : nat * Z =>
       (if negb (Nat.eqb (fst il) 0) && (Z.of_nat (fst il) mod 32 =? 0)
        then [nl] else [])
       ++ [lit " " ++ dec (snd il)])
    (indexed (buflist d)).

Definition bufs_items (d : drm_device_dma) : list text :=
  [bufs_header] ++ bufs_rows d ++ [nl] ++ bufs_buffers d ++ [nl].

(** The lines of the objects report before and after the two
    used-memory lines. *)
Definition objects_before (dev : drm_device) : list text :=
  [lit "Object accounting:" ++ nl ++ nl]
  ++ [if fm_initialized (fm dev)
      then lit "Number of active fence objects: " ++ dec (fm_count (fm dev))
           ++ lit "." ++ nl
      else lit "Fence objects are not supported by this driver" ++ nl]
  ++ (if bm_initialized (bm dev)
      then [lit "Number of active buffer objects: "
            ++ dec (bm_count (bm dev)) ++ lit "." ++ nl ++ nl]
      else [])
  ++ [lit "Memory accounting:" ++ nl ++ nl]
  ++ [if bm_initialized (bm dev)
      then lit "Number of locked GATT pages: "
           ++ udec (to_ulong (cur_pages (bm dev))) ++ lit "." ++ nl
      else lit "Buffer objects are not supported by this driver." ++ nl].

Definition objects_after (dev : drm_device) : list text :=
  [ in_pages (lit "Soft object memory usage threshold") (low_mem (memctl dev));
    in_pages (lit "Hard object memory usage threshold") (high_mem (memctl dev));
    in_pages (lit "Emergency root only memory usage threshold")
      (emer_mem (memctl dev));
    nl ].

(** The used-memory line: pages above 16 pages' worth of bytes, bytes
    otherwise; [tail] is what the bytes format has after its newline. *)
Definition used_memory_line (what : text) (tail : text) (v : Z) : text :=
  if 16 * PAGE_SIZE <? v then in_pages what v else in_bytes what v ++ tail.

Definition objects_items (dev : drm_device) : list text :=
  objects_before dev
  ++ [ used_memory_line (lit "Used object memory") [] (used_mem (memctl dev));
       used_memory_line (lit "Used emergency memory") nl
         (used_emer (memctl dev)) ]
  ++ objects_after dev.

Definition clients_items (dev : drm_device) : list text :=
  clients_header :: map clients_row (filelist dev).

Definition gem_names_items (dev : drm_device) : list text :=
  gem_header :: map (fun e => gem_row (snd e)) (object_name_idr dev).

Definition gem_objects_items (dev : drm_device) : list text :=
  [ dec (object_count dev) ++ lit " objects" ++ nl;
    dec (object_memory dev) ++ lit " object bytes" ++ nl;
    dec (pin_count dev) ++ lit " pinned" ++ nl;
    dec (pin_memory dev) ++ lit " pin bytes" ++ nl;
    dec (gtt_memory dev) ++ lit " gtt bytes" ++ nl;
    dec (gtt_total dev) ++ lit " gtt total" ++ nl ].

(** The items of a report; [None] is the bufs report of a device
    without DMA structure, which prints nothing. *)
Definition items_of (r : report) (dev : drm_device) : option (list text) :=
  match r with
  | R_name => Some (name_items dev)
  | R_vm => Some (vm_items dev)
  | R_clients => Some (clients_items dev)
  | R_queues => Some (queues_items dev)
  | R_bufs => option_map bufs_items (dma dev)
  | R_objects => Some (objects_items dev)
  | R_gem_names => Some (gem_names_items dev)
  | R_gem_objects => Some (gem_objects_items dev)
  end.

(** What a call shows to its caller. *)
Record observed := {
  o_ret : Z;
  o_total : Z;
  o_buf : text;
  o_eof : bool;
  o_writes : list (Z * text)
}.

Definition observe (res : read_result) : observed :=
  {| o_ret := rr_ret res; o_total := rr_total res;
     o_buf := buf (rr_ctx res); o_eof := eof (rr_ctx res);
     o_writes := writes (rr_ctx res) |}.

(** The items that get written when printing stops at the limit
    ([limited]) and when it does not. *)
Definition printed_if (limited : bool) (n : Z) (items : list text)
    : list text * bool :=
  if limited then printed n items else (items, false).

(** The read protocol over a list of items.  [limited] says whether
    the items are printed up to the limit only (gem_names, and the
    other reports when the macros return), [stops] whether the
    callback then returns at once (all reports but gem_names). *)
Definition protocol (limited stops : bool) (items : list text)
    (offset request : Z) : observed :=
  if offset >? DRM_PROC_LIMIT then
    {| o_ret := 0; o_total := 0; o_buf := []; o_eof := true; o_writes := [] |}
  else
    let (p, o) := printed_if limited 0 items in
    let n := tlen (concat p) in
    if (stops && o) || negb (n >? request + offset) then
      {| o_ret := n - offset; o_total := n; o_buf := concat p; o_eof := true;
         o_writes := positions 0 p |}
    else
      {| o_ret := request; o_total := n; o_buf := concat p; o_eof := false;
         o_writes := positions 0 p |}.

Definition stops_at_limit (r : report) : bool :=
  match r with R_gem_names => false | _ => true end.

Definition limited_at (r : report) : bool :=
  match r with R_gem_names => true | _ => DRM_PROC_RETURNS end.

Definition expected (r : report) (dev : drm_device) (offset request : Z)
    : observed :=
  match items_of r dev with
  | Some items =>
      protocol (limited_at r) (stops_at_limit r) items offset request
  | None =>
      {| o_ret := 0; o_total := 0; o_buf := []; o_eof := true; o_writes := [] |}
  end.

(** The events of the queues report for the queues [idx]. *)
Definition queue_events (idx : list nat) : list q_event :=
  flat_map (fun i => [QInc i; QRead i; QDec i]) idx.

Definition is_int (z : Z) : Prop := - 2 ^ 31 <= z < 2 ^ 31.

(** ** Callbacks as printers of their items *)

(** [m] does what printing [items] with the macro does, in every state
    the macro can leave. *)
Definition prints (offset : Z) (m : proc unit) (items : list text) : Prop :=
  forall c, len c = tlen (buf c) ->
            (DRM_PROC_RETURNS = true -> len c <= DRM_PROC_LIMIT) ->
            m c = for_each items (DRM_PROC_PRINT offset) c.

(** The last lines of a callback, on its local [len]. *)
Definition finish (offset request : Z) : proc Z :=
  fun c => proc_tail (len c) offset request c.

(** [m] is the rest of a callback that prints [items] and ends. *)
Definition runs (offset request : Z) (m : proc Z) (items : list text) : Prop :=
  forall c, len c = tlen (buf c) ->
            (DRM_PROC_RETURNS = true -> len c <= DRM_PROC_LIMIT) ->
            m c = (for_each items (DRM_PROC_PRINT offset) ;; finish offset request) c.

(** What a finished callback shows to its caller. *)
Definition flow_observed (f : flow Z) : option observed :=
  match f with
  | Return r c =>
      Some {| o_ret := r; o_total := len c; o_buf := buf c; o_eof := eof c;
              o_writes := writes c |}
  | Next _ _ => None
  end.

(** What one turn of the queues loop does to the queue array and to
    the history of events. *)
Definition visit (i : nat) (c : proc_ctx) : proc_ctx :=
  atomic_dec_use_count i (log_event (QRead i) (atomic_inc_use_count i c)).

Definition visit_all (idx : list nat) (c : proc_ctx) : proc_ctx :=
  fold_left (fun c' i => visit i c') idx c.

(** [read] in terms of what the callback shows. *)
Definition read_of (o : observed) (offset request : Z) : read_outcome :=
  if o_ret o <? 0 then Fault (o_ret o)
  else Data (firstn (Z.to_nat (Z.min (o_ret o) request))
               (skipn (Z.to_nat offset) (o_buf o)))
            (o_eof o).

(** One read of the whole length of the report at offset 0. *)
Definition read_whole (r : report) (dev : drm_device) : option text :=
  match read r dev 0 (total_length r dev) with
  | Data bytes _ => Some bytes
  | Fault _ => None
  end.

(** The products of the bufs row fit their C types: the number of
    pages an int, the number of bytes an unsigned long. *)
Definition fits (e : drm_buf_entry) : Prop :=
  0 <= seg_count e /\ 0 <= page_order e < 31
  /\ seg_count e * 2 ^ page_order e < 2 ^ 31
  /\ seg_count e * 2 ^ page_order e * PAGE_SIZE < 2 ^ BITS_PER_LONG.

(** ** Device states derived from others *)

(** The entries of [dev->maplist] whose [map] is not NULL. *)
Definition has_map (r_list : drm_map_list) : bool :=
  match r_map r_list with Some _ => true | None => false end.

Definition without_null_maps (l : list drm_map_list) : list drm_map_list :=
  filter has_map l.

(** The device with another [maplist]. *)
Definition with_maplist (l : list drm_map_list) (dev : drm_device)
    : drm_device :=
  {| driver_name := driver_name dev; pci_name := pci_name dev;
     unique := unique dev; maplist := l; queuelist := queuelist dev;
     dma := dma dev; fm := fm dev; bm := bm dev; memctl := memctl dev;
     filelist := filelist dev; object_name_idr := object_name_idr dev;
     object_count := object_count dev; object_memory := object_memory dev;
     pin_count := pin_count dev; pin_memory := pin_memory dev;
     gtt_memory := gtt_memory dev; gtt_total := gtt_total dev |}.

(** The entries of procfs that drm_proc_cleanup of a minor with
    directory [d] leaves in place. *)
Definition kept_by_cleanup (d : text) (e : text * text) : bool :=
  negb (text_eqb (fst e) d
        && existsb (fun i => text_eqb (snd e) (entry_name i))
                   (seq 0 DRM_PROC_ENTRIES)).

(** ** The lines of the buffer list *)

(** A list cut into groups of [n] elements, the last one possibly
    shorter; [fuel] bounds the number of groups. *)
Fixpoint groups_of (fuel n : nat) (l : list Z) : list (list Z) :=
  match fuel, l with
  | S fuel', _ :: _ => firstn n l :: groups_of fuel' n (skipn n l)
  | _, _ => []
  end.

(** [" %d"] of every element of the group. *)
Definition buffer_line (g : list Z) : text :=
  concat (map (fun x => lit " " ++ dec x) g).

(** Lines with a line break between every two of them. *)
Fixpoint join_lines (ls : list text) : text :=
  match ls with
  | [] => []
  | x :: rest =>
      match rest with
      | [] => x
      | _ :: _ => x ++ nl ++ join_lines rest
      end
  end.

(** What the loop over [dma->buflist] prints for buffer [fst il]. *)
Definition buffer_item (il : nat * Z) : list text :=
  (if negb (Nat.eqb (fst il) 0) && (Z.of_nat (fst il) mod 32 =? 0)
   then [nl] else [])
  ++ [lit " " ++ dec (snd il)].

Definition is_nil {A} (l : list A) : bool :=
  match l with [] => true | _ :: _ => false end.

(** ** Sample device states *)

Definition demo_queue : drm_queue :=
  {| q_flags := 3; use_count := 0; finalization := 0; block_count := 2;
     block_read := 1; block_write := 0; read_queue_active := false;
     write_queue_active := true; flush_queue_active := false;
     waitlist_bufcount := 7 |}.

Definition demo_entry : drm_buf_entry :=
  {| buf_size := 4096; buf_count := 3; freelist_count := 1; seg_count := 3;
     page_order := 0 |}.

Definition demo_dma : drm_device_dma :=
  {| bufs := [null_entry; demo_entry] ++ repeat null_entry 21;
     buflist := List.map Z.of_nat (seq 0 40) |}.

(** A device with the given unique string, DMA structure, named
    objects and used-memory figure. *)
Definition demo_with (u : option text) (d : option drm_device_dma)
    (idr : list (Z * drm_gem_object)) (used : Z) : drm_device :=
  {| driver_name := lit "i915"; pci_name := lit "0000:00:02.0";
     unique := u;
     maplist :=
       [ {| r_map := Some {| map_offset := 4096; map_size := 8192;
                             map_type := 1; map_flags := 2; map_mtrr := -1 |};
            user_token := 4096 |};
         {| r_map := None; user_token := 0 |};
         {| r_map := Some {| map_offset := 0; map_size := 8192;
                             map_type := 9; map_flags := 2; map_mtrr := 3 |};
            user_token := 4096 |} ];
     queuelist := [demo_queue; demo_queue];
     dma := d;
     fm := {| fm_initialized := true; fm_count := 4 |};
     bm := {| bm_initialized := false; bm_count := 0; cur_pages := 0 |};
     memctl := {| used_mem := used; used_emer := 5; low_mem := 40960;
                  high_mem := 81920; emer_mem := 100000 |};
     filelist :=
       [ {| authenticated := true; file_minor_index := 0; pid := 1234;
            uid := 1000; magic := 0; ioctl_count := 99 |} ];
     object_name_idr := idr;
     object_count := 1; object_memory := 4096; pin_count := 0;
     pin_memory := 0; gtt_memory := 0; gtt_total := 1000 |}.

Definition gem_object_n (i : nat) : Z * drm_gem_object :=
  (Z.of_nat i,
   {| obj_name := Z.of_nat i; obj_size := 4096; handlecount := 1;
      refcount := 2 |}).

Definition demo_dev : drm_device :=
  demo_with (Some (lit "pci:0000:00:02.0")) (Some demo_dma)
    [gem_object_n 1] (17 * 4096).

(** 121 named objects: the header and 121 rows of 33 bytes each make
    4026 bytes. *)
Definition gem121_dev : drm_device :=
  demo_with None None (List.map gem_object_n (seq 1 121)) 5.

(** A unique string of 4100 bytes. *)
Definition long_unique_dev : drm_device :=
  demo_with (Some (repeat "u"%char 4100)) None [] 5.

(** 2^20 segments of one page each. *)
Definition wide_entry : drm_buf_entry :=
  {| buf_size := 4096; buf_count := 1; freelist_count := 0;
     seg_count := 1048576; page_order := 0 |}.

Definition empty_fs : proc_fs := {| dirs := []; entries := []; removals := [] |}.
Definition minor0 : drm_minor := {| minor_index := 0; dev_root := None |}.

(** create_proc_entry fails for entry [n] and for no entry before it. *)
Definition fails_at (n : nat) (i : nat) : bool := negb (Nat.eqb i n).



(** ** Properties *)

(** *** Text, wrap-around *)

Lemma tlen_app (a b : text) : tlen (a ++ b) = tlen a + tlen b.
Proof. unfold tlen. rewrite length_app. lia. Qed.

Lemma tlen_nonneg (t : text) : 0 <= tlen t.
Proof. unfold tlen. lia. Qed.

Lemma poke_end (b s : text) : poke (tlen b) s b = b ++ s.
Proof.
  unfold poke, tlen. rewrite Nat2Z.id, firstn_all. reflexivity.
Qed.

Lemma int_wrap_id (z : Z) : is_int z -> int_wrap z = z.
Proof.
  unfold is_int, int_wrap. intros H.
  rewrite Z.mod_small; lia.
Qed.

Lemma int_wrap_is_int (z : Z) : is_int (int_wrap z).
Proof.
  unfold is_int, int_wrap.
  pose proof (Z.mod_pos_bound (z + 2 ^ 31) (2 ^ 32)). lia.
Qed.


(** *** The macro on a list of items *)

Lemma printed_prefix (items : list text) : forall n,
  exists k, fst (printed n items) = firstn k items.
Proof.
  induction items as [| s rest IH]; intros n; simpl.
  - exists 0%nat. reflexivity.
  - destruct (n + tlen s >? DRM_PROC_LIMIT).
    + exists 1%nat. reflexivity.
    + destruct (IH (n + tlen s)) as [k Hk].
      destruct (printed (n + tlen s) rest) as [p o]. simpl in *.
      exists (S k). simpl. now rewrite Hk.
Qed.

Lemma printed_all (items : list text) : forall n,
  snd (printed n items) = false -> fst (printed n items) = items.
Proof.
  induction items as [| s rest IH]; intros n; simpl; auto.
  destruct (n + tlen s >? DRM_PROC_LIMIT); simpl; [discriminate |].
  specialize (IH (n + tlen s)).
  destruct (printed (n + tlen s) rest) as [p o]. simpl in *.
  intros Ho. now rewrite IH.
Qed.

(** Without overflow the length stays within the limit, with overflow
    it has passed it. *)
Lemma printed_length (items : list text) : forall n,
  n <= DRM_PROC_LIMIT ->
  if snd (printed n items)
  then DRM_PROC_LIMIT < n + tlen (concat (fst (printed n items)))
  else n + tlen (concat (fst (printed n items))) <= DRM_PROC_LIMIT.
Proof.
  induction items as [| s rest IH]; intros n Hn; simpl.
  - unfold tlen. simpl. lia.
  - destruct (n + tlen s >? DRM_PROC_LIMIT) eqn:E; simpl.
    + rewrite app_nil_r. lia.
    + specialize (IH (n + tlen s)).
      destruct (printed (n + tlen s) rest) as [p o]. simpl in *.
      rewrite tlen_app.
      assert (Hle : n + tlen s <= DRM_PROC_LIMIT) by lia.
      specialize (IH Hle). destruct o; lia.
Qed.

(** Every item is written at a position within the limit. *)
Lemma printed_positions (items : list text) : forall n,
  n <= DRM_PROC_LIMIT ->
  Forall (fun w => fst w <= DRM_PROC_LIMIT)
         (positions n (fst (printed n items))).
Proof.
  induction items as [| s rest IH]; intros n Hn; simpl.
  - constructor.
  - destruct (n + tlen s >? DRM_PROC_LIMIT) eqn:E; simpl.
    + constructor; [assumption | constructor].
    + specialize (IH (n + tlen s)).
      destruct (printed (n + tlen s) rest) as [p o]. simpl in *.
      constructor; [assumption |]. apply IH. lia.
Qed.

Lemma firstn_within {A} (k : nat) (l : list A) :
  firstn k l = firstn (Nat.min k (length l)) l.
Proof.
  rewrite <- (firstn_all l) at 1. now rewrite firstn_firstn.
Qed.

Lemma printed_if_prefix (b : bool) (items : list text) (n : Z) :
  exists k, fst (printed_if b n items) = firstn k items.
Proof.
  destruct b; [apply printed_prefix |].
  exists (length items). symmetry. apply firstn_all.
Qed.

Lemma printed_if_all (b : bool) (items : list text) (n : Z) :
  snd (printed_if b n items) = false -> fst (printed_if b n items) = items.
Proof. destruct b; [apply printed_all | reflexivity]. Qed.

(** Printing that stops at the limit ends within it or just past it;
    printing that does not stop reports no overflow. *)
Lemma printed_if_length (b : bool) (items : list text) (n : Z) :
  (b = true -> n <= DRM_PROC_LIMIT) ->
  if snd (printed_if b n items)
  then b = true
       /\ DRM_PROC_LIMIT < n + tlen (concat (fst (printed_if b n items)))
  else b = true ->
       n + tlen (concat (fst (printed_if b n items))) <= DRM_PROC_LIMIT.
Proof.
  intros Hn. destruct b; cbn [printed_if snd fst]; [| discriminate].
  pose proof (printed_length items n (Hn eq_refl)) as H.
  destruct (snd (printed n items)); auto.
Qed.

Lemma printed_if_cons (b : bool) (n : Z) (s : text) (rest : list text) :
  printed_if b n (s :: rest)
  = if b && (n + tlen s >? DRM_PROC_LIMIT) then ([s], true)
    else let (p, o) := printed_if b (n + tlen s) rest in (s :: p, o).
Proof. destruct b; reflexivity. Qed.

Lemma printed_if_nil (b : bool) (n : Z) : printed_if b n [] = ([], false).
Proof. destruct b; reflexivity. Qed.

(** What has been printed is a prefix, given by its own length. *)
Lemma printed_if_firstn (b : bool) (items : list text) (n : Z) :
  fst (printed_if b n items)
  = firstn (length (fst (printed_if b n items))) items
  /\ (length (fst (printed_if b n items)) <= length items)%nat.
Proof.
  destruct (printed_if_prefix b items n) as [k Hk]. rewrite Hk.
  rewrite length_firstn, <- firstn_within. split; [reflexivity | lia].
Qed.

(** The end of the last write is the length reached. *)
Lemma positions_last (p : list text) : forall n,
  p <> [] ->
  exists ws pos s,
    positions n p = ws ++ [(pos, s)] /\ n + tlen (concat p) = pos + tlen s.
Proof.
  induction p as [| s rest IH]; intros n Hp; [congruence |].
  destruct rest as [| s' rest'].
  - exists [], n, s. simpl. rewrite app_nil_r. auto.
  - destruct (IH (n + tlen s)) as (ws & pos & t & Hw & Hl); [discriminate |].
    exists ((n, s) :: ws), pos, t. split.
    + change (positions n (s :: s' :: rest'))
        with ((n, s) :: positions (n + tlen s) (s' :: rest')).
      rewrite Hw. reflexivity.
    + change (concat (s :: s' :: rest')) with (s ++ concat (s' :: rest')).
      rewrite tlen_app. lia.
Qed.

Lemma positions_app (p q : list text) : forall n,
  positions n (p ++ q) = positions n p ++ positions (n + tlen (concat p)) q.
Proof.
  induction p as [| s p IH]; intros n; simpl.
  - unfold tlen. simpl. now rewrite Z.add_0_r.
  - rewrite IH, tlen_app, Z.add_assoc. reflexivity.
Qed.

Lemma emit_emit (p q : list text) (c : proc_ctx) :
  emit q (emit p c) = emit (p ++ q) c.
Proof.
  unfold emit, written, set_len. simpl.
  rewrite concat_app, tlen_app, positions_app, <- !app_assoc.
  f_equal. lia.
Qed.

Lemma emit_nil (c : proc_ctx) : emit [] c = c.
Proof.
  unfold emit, written, set_len. destruct c; simpl.
  unfold tlen. simpl. rewrite Z.add_0_r, !app_nil_r. reflexivity.
Qed.

Lemma emit_len_buf (p : list text) (c : proc_ctx) :
  len c = tlen (buf c) -> len (emit p c) = tlen (buf (emit p c)).
Proof. simpl. intros ->. now rewrite tlen_app. Qed.

Lemma print_step (offset : Z) (s : text) (c : proc_ctx) :
  len c = tlen (buf c) ->
  DRM_PROC_PRINT offset s c =
  if DRM_PROC_RETURNS && (len c + tlen s >? DRM_PROC_LIMIT)
  then Return (len c + tlen s - offset) (set_eof true (emit [s] c))
  else Next tt (emit [s] c).
Proof.
  intros Hl.
  unfold DRM_PROC_PRINT, bind, proc_sprintf, proc_limit_check.
  assert (E : set_len (len c + tlen s) (sprintf_at (len c) s c) = emit [s] c).
  { unfold emit, written, sprintf_at, set_len. simpl.
    rewrite Hl, poke_end, !app_nil_r. reflexivity. }
  rewrite E. simpl. rewrite app_nil_r. reflexivity.
Qed.

Lemma print_run_limited (offset : Z) (items : list text) : forall c,
  DRM_PROC_RETURNS = true ->
  len c = tlen (buf c) ->
  for_each items (DRM_PROC_PRINT offset) c =
  if snd (printed (len c) items)
  then Return (len (emit (fst (printed (len c) items)) c) - offset)
              (set_eof true (emit (fst (printed (len c) items)) c))
  else Next tt (emit (fst (printed (len c) items)) c).
Proof.
  induction items as [| s rest IH]; intros c ER Hl.
  - simpl printed. cbn [snd fst]. rewrite emit_nil. reflexivity.
  - cbn [for_each]. unfold bind at 1. rewrite print_step by assumption.
    rewrite ER. cbn [andb printed].
    destruct (len c + tlen s >? DRM_PROC_LIMIT) eqn:E.
    + cbn [snd fst]. simpl. rewrite app_nil_r. reflexivity.
    + rewrite IH by (try assumption; apply emit_len_buf; assumption).
      assert (El : len (emit [s] c) = len c + tlen s)
        by (simpl; rewrite app_nil_r; reflexivity).
      rewrite El.
      destruct (printed (len c + tlen s) rest) as [p o]. cbn [snd fst].
      rewrite emit_emit. reflexivity.
Qed.

Lemma print_run_full (offset : Z) (items : list text) : forall c,
  DRM_PROC_RETURNS = false ->
  len c = tlen (buf c) ->
  for_each items (DRM_PROC_PRINT offset) c = Next tt (emit items c).
Proof.
  induction items as [| s rest IH]; intros c ER Hl.
  - simpl. rewrite emit_nil. reflexivity.
  - cbn [for_each]. unfold bind at 1. rewrite print_step by assumption.
    rewrite ER. cbn [andb].
    rewrite IH by (try assumption; apply emit_len_buf; assumption).
    rewrite emit_emit. reflexivity.
Qed.

(** What the macro does on a list of items, from any state in which
    [len] is the length of [buf]. *)
Lemma print_run (offset : Z) (items : list text) (c : proc_ctx) :
  len c = tlen (buf c) ->
  for_each items (DRM_PROC_PRINT offset) c =
  if snd (printed_if DRM_PROC_RETURNS (len c) items)
  then Return
         (len (emit (fst (printed_if DRM_PROC_RETURNS (len c) items)) c) - offset)
         (set_eof true (emit (fst (printed_if DRM_PROC_RETURNS (len c) items)) c))
  else Next tt (emit (fst (printed_if DRM_PROC_RETURNS (len c) items)) c).
Proof.
  intros Hl. destruct DRM_PROC_RETURNS eqn:ER; cbn [printed_if snd fst].
  - now apply print_run_limited.
  - now apply print_run_full.
Qed.

Lemma print_run_next (offset : Z) (items : list text) (c c' : proc_ctx) (u : unit) :
  len c = tlen (buf c) ->
  (DRM_PROC_RETURNS = true -> len c <= DRM_PROC_LIMIT) ->
  for_each items (DRM_PROC_PRINT offset) c = Next u c' ->
  len c' = tlen (buf c')
  /\ (DRM_PROC_RETURNS = true -> len c' <= DRM_PROC_LIMIT).
Proof.
  intros Hl Hle H. rewrite print_run in H by assumption.
  pose proof (printed_if_length DRM_PROC_RETURNS items (len c) Hle) as HL.
  destruct (snd (printed_if DRM_PROC_RETURNS (len c) items)); [discriminate |].
  inversion H; subst. split.
  - apply emit_len_buf; assumption.
  - simpl. assumption.
Qed.

Lemma for_each_app {A} (l1 l2 : list A) (f : A -> proc unit) (c : proc_ctx) :
  for_each (l1 ++ l2) f c = (for_each l1 f ;; for_each l2 f) c.
Proof.
  revert c. induction l1 as [| a l1 IH]; intros c; simpl.
  - reflexivity.
  - unfold bind. destruct (f a c); [apply IH | reflexivity].
Qed.

Lemma prints_nil (offset : Z) : prints offset skip [].
Proof. intros c _ _. reflexivity. Qed.

Lemma prints_one (offset : Z) (s : text) :
  prints offset (DRM_PROC_PRINT offset s) [s].
Proof.
  intros c _ _. simpl. unfold bind.
  destruct (DRM_PROC_PRINT offset s c) as [[] c' |]; reflexivity.
Qed.

Lemma prints_seq (offset : Z) (m1 m2 : proc unit) (l1 l2 : list text) :
  prints offset m1 l1 -> prints offset m2 l2 ->
  prints offset (m1 ;; m2) (l1 ++ l2).
Proof.
  intros H1 H2 c Hl Hle.
  rewrite for_each_app. unfold bind. rewrite H1 by assumption.
  destruct (for_each l1 (DRM_PROC_PRINT offset) c) as [u c' |] eqn:E;
    [| reflexivity].
  destruct (print_run_next _ _ _ _ _ Hl Hle E).
  apply H2; assumption.
Qed.

Lemma prints_each {A} (offset : Z) (f : A -> proc unit) (g : A -> list text)
    (l : list A) :
  (forall a, In a l -> prints offset (f a) (g a)) ->
  prints offset (for_each l f) (flat_map g l).
Proof.
  induction l as [| a l IH]; intros H.
  - apply prints_nil.
  - simpl. apply prints_seq.
    + apply H. now left.
    + apply IH. intros b Hb. apply H. now right.
Qed.

(** The macro under an [if] without braces. *)
Lemma prints_unbraced (offset : Z) (b : bool) (s : text) :
  prints offset (DRM_PROC_PRINT_IF offset b s) (if b then [s] else []).
Proof.
  unfold DRM_PROC_PRINT_IF. destruct b.
  - apply prints_one.
  - intros c _ Hle. unfold bind, skip, proc_limit_check. simpl.
    destruct DRM_PROC_RETURNS eqn:ER; cbn [andb]; [| reflexivity].
    specialize (Hle eq_refl).
    destruct (len c >? DRM_PROC_LIMIT) eqn:E; [lia | reflexivity].
Qed.

Lemma runs_tail (offset request : Z) :
  runs offset request (fun c => proc_tail (len c) offset request c) [].
Proof. intros c _ _. reflexivity. Qed.

Lemma runs_seq (offset request : Z) (p : proc unit) (m : proc Z)
    (l1 l2 : list text) :
  prints offset p l1 -> runs offset request m l2 ->
  runs offset request (p ;; m) (l1 ++ l2).
Proof.
  intros Hp Hm c Hl Hle.
  unfold bind. rewrite for_each_app. unfold bind.
  rewrite Hp by assumption.
  destruct (for_each l1 (DRM_PROC_PRINT offset) c) as [u c' |] eqn:E;
    [| reflexivity].
  destruct (print_run_next _ _ _ _ _ Hl Hle E).
  rewrite Hm by assumption. reflexivity.
Qed.

Lemma runs_print (offset request : Z) (s : text) (m : proc Z) (l : list text) :
  runs offset request m l ->
  runs offset request (DRM_PROC_PRINT offset s ;; m) (s :: l).
Proof.
  intros Hm. apply (runs_seq offset request _ m [s] l); [apply prints_one | exact Hm].
Qed.

Lemma runs_skip (offset request : Z) (m : proc Z) (l : list text) :
  runs offset request m l -> runs offset request (skip ;; m) l.
Proof. intros Hm c Hl Hle. rewrite <- Hm by assumption. reflexivity. Qed.

(** The first print of a callback starts from an empty buffer, whatever
    the limit is. *)
Lemma runs_first (offset request : Z) (s : text) (m : proc Z) (l : list text) :
  runs offset request m l ->
  forall c, len c = tlen (buf c) ->
    (DRM_PROC_PRINT offset s ;; m) c
    = (for_each (s :: l) (DRM_PROC_PRINT offset) ;; finish offset request) c.
Proof.
  intros Hm c Hl. cbn [for_each]. unfold bind.
  rewrite print_step by assumption.
  destruct (DRM_PROC_RETURNS && (len c + tlen s >? DRM_PROC_LIMIT)) eqn:E;
    [reflexivity |].
  rewrite Hm; [reflexivity | apply emit_len_buf; assumption |].
  intros ER. rewrite ER in E. cbn [andb] in E.
  simpl. rewrite app_nil_r. lia.
Qed.

(** A callback that prints [items] between the common first and last
    lines follows the read protocol on [items]. *)
Lemma callback_observe_upto (offset request : Z) (m : proc Z)
    (items : list text) (qs : list drm_queue) :
  (forall c, len c = tlen (buf c) -> queues c = qs ->
     flow_observed (m c)
     = flow_observed
         ((for_each items (DRM_PROC_PRINT offset) ;; finish offset request) c)) ->
  observe (of_call (modify (set_len 0) ;; proc_head offset ;; m) (fresh_ctx qs))
  = protocol DRM_PROC_RETURNS true items offset request.
Proof.
  intros Hm. unfold of_call, call, bind at 1, modify, protocol.
  unfold bind at 1, proc_head. cbn [len set_len fresh_ctx].
  destruct (offset >? DRM_PROC_LIMIT) eqn:Eo; [reflexivity |].
  match goal with |- context [m ?c0] => specialize (Hm c0 eq_refl eq_refl) end.
  unfold bind in Hm. rewrite print_run in Hm by reflexivity.
  cbn [len set_eof set_start set_len] in Hm.
  destruct (printed_if DRM_PROC_RETURNS 0 items) as [p o]. cbn [fst snd] in Hm.
  match goal with |- context [m ?c0] => destruct (m c0) as [r c' | r c'] end.
  - unfold finish, proc_tail in Hm.
    destruct o; simpl in Hm; [discriminate |].
    destruct (tlen (concat p) >? request + offset); discriminate.
  - destruct o; cbn [andb orb].
    + simpl in Hm. inversion Hm. unfold observe. simpl. congruence.
    + unfold finish, proc_tail in Hm. simpl in Hm.
      destruct (tlen (concat p) >? request + offset);
        simpl in Hm; inversion Hm; unfold observe; simpl; congruence.
Qed.

Lemma callback_observe (offset request : Z) (m : proc Z) (items : list text)
    (qs : list drm_queue) :
  (forall c, len c = tlen (buf c) ->
     m c = (for_each items (DRM_PROC_PRINT offset) ;; finish offset request) c) ->
  observe (of_call (modify (set_len 0) ;; proc_head offset ;; m) (fresh_ctx qs))
  = protocol DRM_PROC_RETURNS true items offset request.
Proof.
  intros Hm. apply callback_observe_upto. intros c Hl _. now rewrite Hm.
Qed.

(** *** Each callback against its items *)

Lemma flat_map_single {A B} (f : A -> B) (l : list A) :
  flat_map (fun a => [f a]) l = map f l.
Proof. induction l; simpl; congruence. Qed.

Lemma flat_map_filter {A B} (keep : A -> bool) (f : A -> B) (l : list A) :
  flat_map (fun a => if keep a then [f a] else []) l = map f (filter keep l).
Proof.
  induction l as [| a l IH]; simpl; [reflexivity |].
  destruct (keep a); simpl; now rewrite IH.
Qed.

Lemma name_observe (dev : drm_device) (offset request : Z) :
  observe (read_proc R_name dev offset request)
  = protocol DRM_PROC_RETURNS true (name_items dev) offset request.
Proof.
  unfold read_proc, drm_name_info. apply callback_observe.
  intros c Hl. unfold name_items.
  destruct (unique dev); apply runs_first; try assumption; apply runs_tail.
Qed.

Lemma vm_maps_prints (offset : Z) (l : list drm_map_list) : forall i,
  prints offset (vm_maps offset l i) (vm_rows l i).
Proof.
  induction l as [| r_list rest IH]; intros i; simpl.
  - apply prints_nil.
  - destruct (r_map r_list) as [map |]; [| apply IH].
    apply (prints_seq offset _ _ [_] (_ :: _)); [apply prints_one |].
    apply (prints_seq offset _ _ [_] _); [| apply IH].
    destruct (map_mtrr map <? 0); apply prints_one.
Qed.

Lemma vm_observe (dev : drm_device) (offset request : Z) :
  observe (read_proc R_vm dev offset request)
  = protocol DRM_PROC_RETURNS true (vm_items dev) offset request.
Proof.
  unfold read_proc, drm__vm_info. apply callback_observe.
  intros c Hl. unfold vm_items.
  rewrite <- (app_nil_r (vm_rows (maplist dev) 0)).
  apply runs_first; [| assumption].
  apply runs_seq; [apply vm_maps_prints | apply runs_tail].
Qed.

Lemma clients_observe (dev : drm_device) (offset request : Z) :
  observe (read_proc R_clients dev offset request)
  = protocol DRM_PROC_RETURNS true (clients_items dev) offset request.
Proof.
  unfold read_proc, drm__clients_info. apply callback_observe.
  intros c Hl. unfold clients_items.
  rewrite <- (app_nil_r (map clients_row (filelist dev))),
          <- flat_map_single.
  apply runs_first; [| assumption].
  apply runs_seq; [| apply runs_tail].
  apply prints_each. intros priv _. apply prints_one.
Qed.

Lemma gem_objects_observe (dev : drm_device) (offset request : Z) :
  observe (read_proc R_gem_objects dev offset request)
  = protocol DRM_PROC_RETURNS true (gem_objects_items dev) offset request.
Proof.
  unfold read_proc, drm_gem_object_info. apply callback_observe.
  intros c Hl. unfold gem_objects_items.
  apply runs_first; [| assumption].
  repeat apply runs_print. apply runs_tail.
Qed.

Lemma objects_observe (dev : drm_device) (offset request : Z) :
  observe (read_proc R_objects dev offset request)
  = protocol DRM_PROC_RETURNS true (objects_items dev) offset request.
Proof.
  unfold read_proc, drm__objects_info. apply callback_observe.
  intros c Hl.
  unfold objects_items, objects_before, objects_after, used_memory_line.
  rewrite !Z.gtb_ltb.
  destruct (fm_initialized (fm dev)), (bm_initialized (bm dev)),
    (16 * PAGE_SIZE <? used_mem (memctl dev)),
    (16 * PAGE_SIZE <? used_emer (memctl dev));
    cbn [app]; rewrite ?app_nil_r;
    (apply runs_first; [| assumption]);
    repeat first [apply runs_print | apply runs_skip];
    apply runs_tail.
Qed.

Lemma bufs_buffer_prints (offset : Z) (il : nat * Z) :
  prints offset (bufs_buffer offset il)
    ((if negb (Nat.eqb (fst il) 0) && (Z.of_nat (fst il) mod 32 =? 0)
      then [nl] else [])
     ++ [lit " " ++ dec (snd il)]).
Proof.
  unfold bufs_buffer. apply prints_seq; [apply prints_unbraced | apply prints_one].
Qed.

(** Order by order: nothing for a buffer count of zero, the row of the
    order otherwise. *)
Lemma bufs_rows_by_order (d : drm_device_dma) :
  bufs_rows d
  = flat_map
      (fun i => if negb (buf_count (nth i (bufs d) null_entry) =? 0)
                then [bufs_row i (nth i (bufs d) null_entry)] else [])
      (seq 0 (S DRM_MAX_ORDER)).
Proof.
  unfold bufs_rows, bufs_orders.
  rewrite <- flat_map_filter.
  rewrite (flat_map_concat_map _ (map _ _)), map_map, <- flat_map_concat_map.
  reflexivity.
Qed.

Lemma bufs_orders_prints (offset : Z) (d : drm_device_dma) :
  prints offset (for_each (seq 0 (S DRM_MAX_ORDER)) (bufs_order offset d))
    (bufs_rows d).
Proof.
  rewrite bufs_rows_by_order.
  apply prints_each. intros i _.
  unfold bufs_order. apply prints_unbraced.
Qed.

Lemma bufs_observe (dev : drm_device) (d : drm_device_dma)
    (offset request : Z) :
  dma dev = Some d ->
  observe (read_proc R_bufs dev offset request)
  = protocol DRM_PROC_RETURNS true (bufs_items d) offset request.
Proof.
  intros Hd. unfold read_proc, drm__bufs_info. rewrite Hd.
  apply callback_observe.
  intros c Hl. unfold bufs_items. cbn [app].
  apply runs_first; [| assumption].
  apply runs_seq; [apply bufs_orders_prints |].
  apply runs_print.
  apply runs_seq; [| apply runs_print, runs_tail].
  unfold bufs_buffers. apply prints_each. intros il _. apply bufs_buffer_prints.
Qed.

Lemma bufs_no_dma (dev : drm_device) (offset request : Z) :
  dma dev = None ->
  observe (read_proc R_bufs dev offset request)
  = {| o_ret := 0; o_total := 0; o_buf := []; o_eof := true; o_writes := [] |}.
Proof.
  intros Hd. unfold read_proc, drm__bufs_info. rewrite Hd. reflexivity.
Qed.

(** *** The queues report *)

Lemma update_queue_length (i : nat) (f : drm_queue -> drm_queue) :
  forall qs, length (update_queue i f qs) = length qs.
Proof.
  induction i as [| i IH]; intros [| q qs]; simpl; auto.
Qed.

Lemma nth_update_same (f : drm_queue -> drm_queue) : forall i qs,
  (i < length qs)%nat ->
  nth i (update_queue i f qs) null_queue = f (nth i qs null_queue).
Proof.
  induction i as [| i IH]; intros [| q qs] H; simpl in *; try lia; auto.
  apply IH. lia.
Qed.

Lemma nth_update_other (f : drm_queue -> drm_queue) : forall i j qs,
  i <> j ->
  nth j (update_queue i f qs) null_queue = nth j qs null_queue.
Proof.
  induction i as [| i IH]; intros j [| q qs] H; simpl; auto.
  - destruct j; [congruence | reflexivity].
  - destruct j; [reflexivity |]. apply IH. congruence.
Qed.





Lemma ctx_ext (c1 c2 : proc_ctx) :
  buf c1 = buf c2 -> len c1 = len c2 -> eof c1 = eof c2 ->
  start c1 = start c2 -> writes c1 = writes c2 -> queues c1 = queues c2 ->
  events c1 = events c2 -> c1 = c2.
Proof.
  destruct c1, c2. simpl. intros. subst. reflexivity.
Qed.

Lemma visit_emit (i : nat) (p : list text) (c : proc_ctx) :
  emit p (visit i c) = visit i (emit p c).
Proof. reflexivity. Qed.

Lemma queues_one_run (offset : Z) (i : nat) (c : proc_ctx) :
  len c = tlen (buf c) -> (i < length (queues c))%nat ->
  queues_one offset i c =
  if DRM_PROC_RETURNS
     && (len c + tlen (queues_row i (add_use_count 1 (nth i (queues c) null_queue)))
         >? DRM_PROC_LIMIT)
  then Return
         (len c + tlen (queues_row i (add_use_count 1 (nth i (queues c) null_queue)))
          - offset)
         (set_eof true
            (visit i
               (emit [queues_row i (add_use_count 1 (nth i (queues c) null_queue))]
                  c)))
  else Next tt
         (visit i
            (emit [queues_row i (add_use_count 1 (nth i (queues c) null_queue))] c)).
Proof.
  intros Hl Hi.
  unfold queues_one, bind, modify, DRM_PROC_PRINT_RET, bind, proc_sprintf,
    proc_limit_check.
  cbn [queues log_event atomic_inc_use_count set_queues len set_len sprintf_at].
  rewrite nth_update_same by assumption.
  generalize (queues_row i (add_use_count 1 (nth i (queues c) null_queue))).
  intros row.
  assert (E : poke (len c) row (buf c) = buf c ++ concat [row]).
  { rewrite Hl, poke_end. simpl. now rewrite app_nil_r. }
  assert (El : tlen (concat [row]) = tlen row)
    by (simpl; now rewrite app_nil_r).
  destruct (DRM_PROC_RETURNS && (len c + tlen row >? DRM_PROC_LIMIT)); f_equal;
    apply ctx_ext;
    cbn [buf len eof start writes queues events positions visit emit written
         atomic_dec_use_count atomic_inc_use_count log_event set_queues
         set_len set_eof sprintf_at];
    rewrite ?E, ?El; reflexivity.
Qed.

Lemma visit_all_fields (idx : list nat) : forall c,
  buf (visit_all idx c) = buf c /\ len (visit_all idx c) = len c
  /\ eof (visit_all idx c) = eof c /\ writes (visit_all idx c) = writes c
  /\ events (visit_all idx c) = events c ++ queue_events idx.
Proof.
  induction idx as [| i idx IH]; intros c; simpl.
  - now rewrite app_nil_r.
  - destruct (IH (visit i c)) as (Hb & Hn & He & Hw & Hv).
    unfold visit_all in *. rewrite Hb, Hn, He, Hw, Hv. simpl.
    rewrite <- !app_assoc. auto.
Qed.


Lemma visit_all_emit (idx : list nat) (p : list text) : forall c,
  emit p (visit_all idx c) = visit_all idx (emit p c).
Proof.
  induction idx as [| i idx IH]; intros c; simpl; [reflexivity |].
  unfold visit_all in *. now rewrite IH.
Qed.

Lemma queues_rows_untouched (i : nat) (idx : list nat) (c : proc_ctx) :
  ~ In i idx ->
  queues_rows (queues (visit i c)) idx = queues_rows (queues c) idx.
Proof.
  intros Hn. unfold queues_rows. apply map_ext_in. intros j Hj.
  simpl. rewrite !nth_update_other; [reflexivity | |]; congruence.
Qed.

(** The loop of the queues report: it prints the rows of the queues
    and visits every queue it has printed. *)
Lemma queues_loop_run (offset : Z) (idx : list nat) : forall c,
  len c = tlen (buf c) -> NoDup idx ->
  (forall i, In i idx -> (i < length (queues c))%nat) ->
  for_each idx (queues_one offset) c =
  if snd (printed_if DRM_PROC_RETURNS (len c) (queues_rows (queues c) idx))
  then
    Return
      (len (emit (fst (printed_if DRM_PROC_RETURNS (len c)
                         (queues_rows (queues c) idx))) c) - offset)
      (set_eof true
         (visit_all
            (firstn (length (fst (printed_if DRM_PROC_RETURNS (len c)
                                    (queues_rows (queues c) idx))))
                    idx)
            (emit (fst (printed_if DRM_PROC_RETURNS (len c)
                          (queues_rows (queues c) idx))) c)))
  else
    Next tt
      (visit_all idx
         (emit (fst (printed_if DRM_PROC_RETURNS (len c)
                       (queues_rows (queues c) idx))) c)).
Proof.
  induction idx as [| i idx IH]; intros c Hl Hnd Hin.
  - cbn [queues_rows map]. rewrite printed_if_nil. simpl.
    rewrite emit_nil. reflexivity.
  - cbn [for_each]. unfold bind.
    rewrite queues_one_run; [| assumption | apply Hin; now left].
    cbn [queues_rows map]. rewrite printed_if_cons.
    set (row := queues_row i (add_use_count 1 (nth i (queues c) null_queue))).
    destruct (DRM_PROC_RETURNS && (len c + tlen row >? DRM_PROC_LIMIT)) eqn:E.
    + cbn [fst snd length firstn]. simpl. rewrite app_nil_r. reflexivity.
    + inversion Hnd as [| ? ? Hni Hnd']; subst.
      rewrite IH; cycle 1.
      * simpl. rewrite app_nil_r, tlen_app, Hl. reflexivity.
      * assumption.
      * intros j Hj. simpl. rewrite !update_queue_length. apply Hin. now right.
      * rewrite queues_rows_untouched by assumption.
        assert (El : len (visit i (emit [row] c)) = len c + tlen row)
          by (simpl; now rewrite app_nil_r).
        rewrite El. fold (queues_rows (queues c) idx).
        change (queues (emit [row] c)) with (queues c).
        destruct (printed_if DRM_PROC_RETURNS (len c + tlen row)
                    (queues_rows (queues c) idx))
          as [p o].
        cbn [fst snd length firstn].
        rewrite !visit_emit, !emit_emit. reflexivity.
Qed.

Lemma queues_visit_all (idx : list nat) (c : proc_ctx) (b : bool) :
  queues (set_eof b (visit_all idx c)) = queues (visit_all idx (set_eof b c))
  /\ events (set_eof b (visit_all idx c)) = events c ++ queue_events idx.
Proof.
  split.
  - revert c. induction idx as [| i idx IH]; intros c; simpl; [reflexivity |].
    unfold visit_all in *. simpl in IH. rewrite IH. reflexivity.
  - simpl. apply visit_all_fields.
Qed.

Lemma visit_all_queues_only (idx : list nat) : forall c c',
  queues c = queues c' -> queues (visit_all idx c) = queues (visit_all idx c').
Proof.
  induction idx as [| i idx IH]; intros c c' H; simpl; [assumption |].
  apply IH. simpl. now rewrite H.
Qed.

Lemma firstn_seq_min (n : nat) : forall s l,
  firstn n (seq s l) = seq s (Nat.min n l).
Proof.
  induction n as [| n IH]; intros s [| l]; simpl; auto.
  now rewrite IH.
Qed.

Lemma queues_rows_firstn (qs : list drm_queue) (m : nat) :
  firstn m (queues_rows qs (seq 0 (length qs)))
  = queues_rows qs (seq 0 (Nat.min m (length qs))).
Proof.
  unfold queues_rows. now rewrite firstn_map, firstn_seq_min.
Qed.

(** The queues report: what the caller sees, and what has happened to
    the queues.  [m] is the number of queues the loop has gone
    through. *)
Lemma queues_run (dev : drm_device) (offset request : Z) :
  observe (read_proc R_queues dev offset request)
  = protocol DRM_PROC_RETURNS true (queues_items dev) offset request
  /\ exists m, (m <= length (queuelist dev))%nat
     /\ events (rr_ctx (read_proc R_queues dev offset request))
        = queue_events (seq 0 m)
     /\ queues (rr_ctx (read_proc R_queues dev offset request))
        = queues (visit_all (seq 0 m) (fresh_ctx (queuelist dev)))
     /\ buf (rr_ctx (read_proc R_queues dev offset request))
        = (if offset >? DRM_PROC_LIMIT then []
           else concat (queues_header
                        :: queues_rows (queuelist dev) (seq 0 m)))
     /\ (offset <= DRM_PROC_LIMIT ->
         m = length (queuelist dev)
         \/ (DRM_PROC_RETURNS = true
             /\ DRM_PROC_LIMIT
                < rr_total (read_proc R_queues dev offset request))).
Proof.
  remember (read_proc R_queues dev offset request) as res eqn:Hres.
  unfold read_proc, of_call, call, drm__queues_info in Hres.
  unfold protocol, queues_items.
  revert Hres. generalize queues_header. intros h Hres.
  unfold bind at 1, modify in Hres. unfold bind at 1, proc_head in Hres.
  cbn [len set_len fresh_ctx] in Hres.
  destruct (offset >? DRM_PROC_LIMIT) eqn:Eo.
  { subst res. split; [reflexivity |].
    exists 0%nat. split; [apply Nat.le_0_l |].
    split; [reflexivity |]. split; [reflexivity |]. split; [reflexivity |].
    intros. lia. }
  unfold bind at 1 in Hres. rewrite print_step in Hres by reflexivity.
  cbn [len set_eof set_start set_len] in Hres |- *.
  rewrite printed_if_cons.
  destruct (DRM_PROC_RETURNS && (0 + tlen h >? DRM_PROC_LIMIT)) eqn:Eh.
  { subst res. split.
    - cbn [andb orb fst snd]. unfold observe.
      cbn [rr_ret rr_total rr_ctx buf len eof writes set_eof emit written
           set_len set_start concat positions app].
      rewrite !app_nil_r. reflexivity.
    - exists 0%nat. split; [apply Nat.le_0_l |].
      split; [reflexivity |]. split; [reflexivity |]. split.
      + cbn [rr_ctx buf set_eof emit written set_len set_start concat app
             seq queues_rows map fresh_ctx].
        reflexivity.
      + intros _. right. apply andb_true_iff in Eh. destruct Eh as [ER Eh].
        split; [exact ER |].
        cbn [rr_total len set_eof emit set_len written set_start concat app].
        rewrite app_nil_r. lia. }
  unfold bind at 1 in Hres.
  set (c1 := emit [h] _) in Hres.
  assert (Hq : queues c1 = queuelist dev) by reflexivity.
  assert (El : len c1 = 0 + tlen h).
  { subst c1. cbn [emit len set_len concat]. now rewrite app_nil_r. }
  assert (Hb1 : buf c1 = h).
  { subst c1. cbn [emit buf set_len written set_eof set_start concat app].
    now rewrite app_nil_r. }
  assert (Hw1 : writes c1 = [(0, h)]) by reflexivity.
  rewrite queues_loop_run in Hres; cycle 1.
  { rewrite El, Hb1. reflexivity. }
  { apply seq_NoDup. }
  { intros i Hi. apply in_seq in Hi. lia. }
  rewrite Hq, El in Hres.
  set (n := length (queuelist dev)) in *.
  set (rows := queues_rows (queuelist dev) (seq 0 n)) in Hres |- *.
  assert (Hrows : length rows = n).
  { subst rows. unfold queues_rows. now rewrite length_map, length_seq. }
  assert (Hwithin : DRM_PROC_RETURNS = true -> 0 + tlen h <= DRM_PROC_LIMIT).
  { intros ER. rewrite ER in Eh. cbn [andb] in Eh. lia. }
  pose proof (printed_if_length DRM_PROC_RETURNS rows (0 + tlen h) Hwithin) as HL.
  destruct (printed_if_firstn DRM_PROC_RETURNS rows (0 + tlen h)) as [Hp1 Hp2].
  pose proof (printed_if_all DRM_PROC_RETURNS rows (0 + tlen h)) as HA.
  destruct (printed_if DRM_PROC_RETURNS (0 + tlen h) rows) as [p o].
  cbn [fst snd] in Hres, HL, Hp1, Hp2, HA |- *.
  assert (Hbuf : buf (emit p c1) = concat (h :: p)).
  { cbn [emit buf set_len written concat]. now rewrite Hb1. }
  assert (Hlen : len (emit p c1) = tlen (concat (h :: p))).
  { cbn [emit len set_len concat]. rewrite El, tlen_app. reflexivity. }
  assert (Hwr : writes (emit p c1) = positions 0 (h :: p)).
  { cbn [emit writes set_len written positions]. rewrite Hw1, El. reflexivity. }
  assert (Heof : eof (emit p c1) = false) by reflexivity.
  assert (Hpm : p = queues_rows (queuelist dev) (seq 0 (Nat.min (length p) n))).
  { rewrite Hp1 at 1. subst rows n. apply queues_rows_firstn. }
  destruct o.
  - cbn [andb orb]. subst res. split.
    + unfold observe. cbn [rr_ret rr_total rr_ctx].
      destruct (visit_all_fields (firstn (length p) (seq 0 n))
                  (emit p c1)) as (Hb & Hn & He & Hw & Hv).
      cbn [buf len eof writes set_eof].
      rewrite Hb, Hn, Hw, Hbuf, Hlen, Hwr. reflexivity.
    + exists (Nat.min (length p) n).
      split; [apply Nat.le_min_r |]. rewrite <- firstn_seq_min.
      destruct (queues_visit_all (firstn (length p) (seq 0 n))
                  (emit p c1) true) as [Hq1 Hq2].
      destruct (visit_all_fields (firstn (length p) (seq 0 n))
                  (emit p c1)) as (Hb & Hn & _).
      cbn [rr_ctx rr_total]. split; [rewrite Hq2; reflexivity |].
      split; [rewrite Hq1; apply visit_all_queues_only; reflexivity |].
      split.
      * cbn [buf set_eof]. rewrite Hb, Hbuf, firstn_seq_min, <- Hpm.
        reflexivity.
      * intros _. right. destruct HL as [ER HL]. split; [exact ER |].
        cbn [len set_eof]. rewrite Hn, Hlen. cbn [concat].
        rewrite tlen_app. lia.
  - cbn [andb orb]. specialize (HA eq_refl). subst p.
    destruct (visit_all_fields (seq 0 n) (emit rows c1))
      as (Hb & Hn & He & Hw & Hv).
    unfold proc_tail in Hres. rewrite Hn, Hlen in Hres.
    destruct (tlen (concat (h :: rows)) >? request + offset);
      cbn [negb]; subst res; (split;
      [ unfold observe; cbn [rr_ret rr_total rr_ctx buf len eof writes set_eof];
        rewrite ?Hb, ?Hn, ?Hw, ?He, ?Hbuf, ?Hlen, ?Hwr, ?Heof; reflexivity
      | exists n; split; [apply Nat.le_refl |];
        cbn [rr_ctx] ]).
    + split; [rewrite Hv; reflexivity |].
      split; [apply visit_all_queues_only; reflexivity |].
      split; [rewrite Hb, Hbuf; reflexivity | intros _; left; reflexivity].
    + destruct (queues_visit_all (seq 0 n) (emit rows c1) true)
        as [Hq1 Hq2].
      split; [rewrite Hq2; reflexivity |].
      split; [rewrite Hq1; apply visit_all_queues_only; reflexivity |].
      split; [cbn [buf set_eof]; rewrite Hb, Hbuf; reflexivity
             | intros _; left; reflexivity].
Qed.

(** *** The gem_names report *)

(** Once the flag of [nid] is set, the walk goes through the remaining
    entries and only writes to the kernel log. *)
Lemma gem_walk_done (l : list (Z * drm_gem_object)) : forall w,
  nid_eof (nid w) = true ->
  idr_for_each l drm_gem_one_name_info w
  = (0, {| nid := nid w; ctx := ctx w;
           klog := klog w ++ map (fun e => gem_info_line (snd e)) l |}).
Proof.
  induction l as [| [id obj] l IH]; intros w He; simpl.
  - rewrite app_nil_r. destruct w; reflexivity.
  - unfold drm_gem_one_name_info at 1. rewrite He.
    cbn [Z.eqb]. rewrite IH by assumption.
    cbn [nid ctx klog]. rewrite <- app_assoc. reflexivity.
Qed.

(** Before that, the walk appends rows as the macro would. *)
Lemma gem_walk_run (l : list (Z * drm_gem_object)) : forall w,
  nid_len (nid w) = tlen (buf (ctx w)) -> nid_eof (nid w) = false ->
  idr_for_each l drm_gem_one_name_info w
  = (0, {| nid :=
             {| nid_len :=
                  nid_len (nid w)
                  + tlen (concat (fst (printed (nid_len (nid w))
                                         (map (fun e => gem_row (snd e)) l))));
                nid_eof :=
                  snd (printed (nid_len (nid w))
                         (map (fun e => gem_row (snd e)) l)) |};
           ctx :=
             written (nid_len (nid w))
               (fst (printed (nid_len (nid w))
                       (map (fun e => gem_row (snd e)) l)))
               (ctx w);
           klog := klog w ++ map (fun e => gem_info_line (snd e)) l |}).
Proof.
  induction l as [| [id obj] l IH]; intros w Hl He.
  - simpl. unfold written. destruct w as [[n e] c k]. simpl in *. subst e.
    unfold tlen at 1. simpl. rewrite Z.add_0_r, !app_nil_r.
    destruct c; reflexivity.
  - cbn [idr_for_each map printed snd].
    unfold drm_gem_one_name_info at 1. rewrite He.
    set (row := gem_row obj).
    assert (Ec : sprintf_at (nid_len (nid w)) row (ctx w)
                 = written (nid_len (nid w)) [row] (ctx w)).
    { unfold sprintf_at, written. rewrite Hl, poke_end. simpl.
      rewrite app_nil_r. reflexivity. }
    rewrite Ec.
    destruct (nid_len (nid w) + tlen row >? DRM_PROC_LIMIT) eqn:E.
    + cbn [Z.eqb]. rewrite gem_walk_done by reflexivity.
      cbn [nid ctx klog fst snd concat]. rewrite app_nil_r, <- app_assoc.
      reflexivity.
    + cbn [Z.eqb]. rewrite IH; cycle 1.
      * cbn [nid ctx nid_len written buf concat].
        rewrite app_nil_r, tlen_app, Hl. reflexivity.
      * reflexivity.
      * cbn [nid ctx klog nid_len nid_eof].
        destruct (printed (nid_len (nid w) + tlen row)
                    (map (fun e => gem_row (snd e)) l)) as [p o].
        cbn [fst snd concat]. rewrite tlen_app, <- app_assoc, Z.add_assoc.
        unfold written. cbn [buf len eof start writes queues events positions concat].
        rewrite app_nil_r, <- !app_assoc. reflexivity.
Qed.

Lemma gem_names_observe (dev : drm_device) (offset request : Z) :
  tlen gem_header <= DRM_PROC_LIMIT ->
  observe (read_proc R_gem_names dev offset request)
  = protocol true false (gem_names_items dev) offset request.
Proof.
  intros Hh.
  unfold read_proc, drm_gem_name_info, protocol, gem_names_items, gem_name_walk.
  destruct (offset >? DRM_PROC_LIMIT) eqn:Eo; [reflexivity |].
  rewrite gem_walk_run by reflexivity.
  cbn [printed_if printed nid ctx nid_len snd fst].
  generalize dependent gem_header. intros h Hh.
  assert (E : (0 + tlen h >? DRM_PROC_LIMIT) = false) by lia.
  rewrite E.
  change (0 + tlen h) with (tlen h).
  destruct (printed (tlen h) (map (fun e => gem_row (snd e)) (object_name_idr dev)))
    as [p o].
  cbn [fst snd andb orb concat]. rewrite tlen_app.
  destruct (tlen h + tlen (concat p) >? request + offset);
    unfold observe; cbn [negb]; reflexivity.
Qed.

(** *** Every report follows the read protocol on its items *)

Lemma read_proc_expected (r : report) (dev : drm_device) (offset request : Z) :
  (r = R_gem_names -> tlen gem_header <= DRM_PROC_LIMIT) ->
  observe (read_proc r dev offset request) = expected r dev offset request.
Proof.
  intros Hg. unfold expected. destruct r; cbn [items_of stops_at_limit limited_at].
  - apply name_observe.
  - apply vm_observe.
  - apply clients_observe.
  - apply queues_run.
  - destruct (dma dev) as [d |] eqn:Hd; cbn [option_map].
    + now apply bufs_observe.
    + now apply bufs_no_dma.
  - apply objects_observe.
  - apply gem_names_observe. now apply Hg.
  - apply gem_objects_observe.
Qed.

Lemma read_as_observed (r : report) (dev : drm_device) (offset request : Z) :
  read r dev offset request
  = read_of (observe (read_proc r dev offset request)) offset request.
Proof. reflexivity. Qed.

(** The items a call has written are the first items of the report. *)
Lemma protocol_writes (limited stops : bool) (items : list text)
    (offset request : Z) :
  exists n,
    map snd (o_writes (protocol limited stops items offset request))
    = firstn n items.
Proof.
  unfold protocol.
  destruct (offset >? DRM_PROC_LIMIT); [exists 0%nat; reflexivity |].
  destruct (printed_if_prefix limited items 0) as [k Hk].
  destruct (printed_if limited 0 items) as [p o]. cbn [fst] in Hk.
  assert (E : forall n l, map snd (positions n l) = l).
  { intros n l. revert n. induction l; intros; simpl; congruence. }
  exists k. destruct ((stops && o) || negb (tlen (concat p) >? request + offset));
    cbn [o_writes]; now rewrite E.
Qed.

(** A call that ends within the limit has written all of them. *)
Lemma protocol_complete (limited stops : bool) (items : list text)
    (offset request : Z) :
  offset <= DRM_PROC_LIMIT ->
  o_total (protocol limited stops items offset request) <= DRM_PROC_LIMIT ->
  o_buf (protocol limited stops items offset request) = concat items.
Proof.
  intros Ho Ht. unfold protocol in *.
  destruct (offset >? DRM_PROC_LIMIT) eqn:E; [lia |].
  assert (H0 : 0 <= DRM_PROC_LIMIT).
  { destruct (printed_if limited 0 items) as [p o].
    destruct ((stops && o) || negb (tlen (concat p) >? request + offset));
      cbn [o_total] in Ht; pose proof (tlen_nonneg (concat p)); lia. }
  pose proof (printed_if_length limited items 0 (fun _ => H0)) as HL.
  pose proof (printed_if_all limited items 0) as HA.
  destruct (printed_if limited 0 items) as [p o]. cbn [fst snd] in *.
  assert (o = false).
  { destruct o; [| reflexivity]. destruct HL as [_ HL].
    destruct ((stops && true) || negb (tlen (concat p) >? request + offset));
      cbn [o_total] in Ht; lia. }
  subst o. specialize (HA eq_refl). subst p.
  destruct ((stops && false) || negb (tlen (concat items) >? request + offset));
    reflexivity.
Qed.

(** Every write of a call starts within the limit. *)
Lemma protocol_positions (stops : bool) (items : list text) (offset request : Z) :
  0 <= DRM_PROC_LIMIT ->
  Forall (fun w => fst w <= DRM_PROC_LIMIT)
         (o_writes (protocol true stops items offset request)).
Proof.
  intros H0. unfold protocol. cbn [printed_if].
  destruct (offset >? DRM_PROC_LIMIT); [constructor |].
  pose proof (printed_positions items 0 H0) as HP.
  destruct (printed 0 items) as [p o]. cbn [fst] in HP.
  destruct ((stops && o) || negb (tlen (concat p) >? request + offset));
    exact HP.
Qed.

(** The length a call has reached is where its last write ends. *)
Lemma protocol_last (limited stops : bool) (items : list text)
    (offset request : Z) :
  (o_writes (protocol limited stops items offset request) = []
   /\ o_total (protocol limited stops items offset request) = 0)
  \/ exists ws pos s,
       o_writes (protocol limited stops items offset request) = ws ++ [(pos, s)]
       /\ o_total (protocol limited stops items offset request) = pos + tlen s.
Proof.
  unfold protocol.
  destruct (offset >? DRM_PROC_LIMIT); [left; split; reflexivity |].
  destruct (printed_if limited 0 items) as [p o].
  destruct p as [| s p].
  - left.
    match goal with |- context [if ?b then _ else _] => destruct b end;
      split; reflexivity.
  - right.
    destruct (positions_last (s :: p) 0) as (ws & pos & t & Hw & Hl);
      [discriminate |].
    exists ws, pos, t.
    destruct ((stops && o) || negb (tlen (concat (s :: p)) >? request + offset));
      cbn [o_writes o_total]; rewrite Hw; split; auto.
Qed.

(** The fields of a result as fields of what the caller sees. *)
Ltac as_observed :=
  repeat match goal with
  | |- context [rr_ret ?r] => change (rr_ret r) with (o_ret (observe r))
  | |- context [rr_total ?r] => change (rr_total r) with (o_total (observe r))
  | |- context [eof (rr_ctx ?r)] =>
      change (eof (rr_ctx r)) with (o_eof (observe r))
  | |- context [buf (rr_ctx ?r)] =>
      change (buf (rr_ctx r)) with (o_buf (observe r))
  | |- context [writes (rr_ctx ?r)] =>
      change (writes (rr_ctx r)) with (o_writes (observe r))
  end.

(** *** Reading at or past the end of a report *)

(** From the length of the report on, a call signals the end of the
    report and returns [len - offset], which is zero at the end of the
    report and negative past it; only the bufs report of a device
    without DMA structure, which has no [len], returns 0. *)
Lemma read_past_end (r : report) (dev : drm_device) (offset request : Z) :
  (r = R_gem_names -> tlen gem_header <= DRM_PROC_LIMIT) ->
  offset <= DRM_PROC_LIMIT -> 0 <= request ->
  rr_total (read_proc r dev offset request) <= offset ->
  eof (rr_ctx (read_proc r dev offset request)) = true
  /\ (r = R_bufs -> dma dev = None ->
      rr_ret (read_proc r dev offset request) = 0)
  /\ ((r = R_bufs -> dma dev <> None) ->
      rr_ret (read_proc r dev offset request)
      = rr_total (read_proc r dev offset request) - offset).
Proof.
  intros Hg Ho Hr.
  pose proof (read_proc_expected r dev offset request Hg) as E.
  as_observed. rewrite E. unfold expected, protocol.
  destruct (items_of r dev) as [items |] eqn:Hi.
  - destruct (offset >? DRM_PROC_LIMIT) eqn:Eo; [lia |].
    destruct (printed_if (limited_at r) 0 items) as [p o].
    assert (Hb : r = R_bufs -> dma dev = None -> False).
    { intros -> Hd. cbn [items_of] in Hi. rewrite Hd in Hi. discriminate. }
    destruct (tlen (concat p) >? request + offset) eqn:En.
    + destruct (stops_at_limit r && o); cbn [orb negb o_eof o_ret o_total].
      * intros _. split; [reflexivity |]. split; [| reflexivity].
        intros H1 H2. destruct (Hb H1 H2).
      * intros Ht. lia.
    + rewrite orb_true_r. cbn [o_eof o_ret o_total]. intros _.
      split; [reflexivity |]. split; [| reflexivity].
      intros H1 H2. destruct (Hb H1 H2).
  - cbn [o_eof o_ret o_total]. intros _.
    split; [reflexivity |]. split; [reflexivity |].
    intros Hd. exfalso.
    destruct r; cbn [items_of] in Hi; try discriminate.
    destruct (dma dev) as [d |] eqn:Ed; [discriminate |].
    now apply (Hd eq_refl).
Qed.

(** *** The bufs report without DMA structure *)

(** C10. When the DMA structure of the device is absent, a read of the
    bufs report returns zero bytes and signals the end of the report,
    for every offset and length, and nothing at all is written; with a
    DMA structure the header line is written whenever the offset is
    within the limit. *)
Theorem bufs_without_dma_is_empty :
  forall (dev : drm_device) (offset request : Z),
    dma dev = None ->
    rr_ret (read_proc R_bufs dev offset request) = 0
    /\ eof (rr_ctx (read_proc R_bufs dev offset request)) = true
    /\ buf (rr_ctx (read_proc R_bufs dev offset request)) = []
    /\ writes (rr_ctx (read_proc R_bufs dev offset request)) = []
    /\ read R_bufs dev offset request = Data [] true
    /\ forall (dev' : drm_device) (d : drm_device_dma),
         dma dev' = Some d -> offset <= DRM_PROC_LIMIT ->
         hd_error (writes (rr_ctx (read_proc R_bufs dev' offset request)))
         = Some (0, bufs_header).
Proof.
  intros dev offset request Hd.
  pose proof (bufs_no_dma dev offset request Hd) as E.
  rewrite read_as_observed. as_observed. rewrite E.
  split; [reflexivity |]. split; [reflexivity |]. split; [reflexivity |].
  split; [reflexivity |]. split.
  { unfold read_of. cbn [o_ret o_buf o_eof Z.ltb Z.compare].
    now rewrite skipn_nil, firstn_nil. }
  intros dev' d Hd' Ho.
  pose proof (bufs_observe dev' d offset request Hd') as E'.
  as_observed. rewrite E'. unfold protocol, bufs_items.
  destruct (offset >? DRM_PROC_LIMIT) eqn:Eo; [lia |].
  cbn [app]. rewrite printed_if_cons.
  destruct (DRM_PROC_RETURNS && (0 + tlen bufs_header >? DRM_PROC_LIMIT)).
  - match goal with |- context [if ?b then _ else _] => destruct b end;
      reflexivity.
  - destruct (printed_if DRM_PROC_RETURNS (0 + tlen bufs_header) _) as [p o].
    match goal with |- context [if ?b then _ else _] => destruct b end;
      reflexivity.
Qed.

(** *** The use counts of the queues *)


(** *** The gem_names report at the limit *)

Lemma idr_for_each_app {S : Type} (l1 l2 : list (Z * drm_gem_object))
    (fn : Z -> drm_gem_object -> S -> Z * S) : forall w,
  idr_for_each (l1 ++ l2) fn w
  = if fst (idr_for_each l1 fn w) =? 0
    then idr_for_each l2 fn (snd (idr_for_each l1 fn w))
    else idr_for_each l1 fn w.
Proof.
  induction l1 as [| [id ptr] l1 IH]; intros w; simpl.
  - reflexivity.
  - destruct (fn id ptr w) as [r w']. destruct (r =? 0) eqn:E.
    + apply IH.
    + simpl. now rewrite E.
Qed.


(** C4. In the gem_names report, once the length written has passed
    the limit the overflow flag of the walk is set; the walk still
    goes through every remaining entry (the callback logs each of them
    and returns 0) and ends without error, but appends nothing more:
    the buffer stays the header followed by whole rows of the first
    entries. *)
Theorem gem_names_stops_appending :
  forall (dev : drm_device) (l1 l2 : list (Z * drm_gem_object))
         (c : proc_ctx) (kl : list text),
    tlen gem_header <= DRM_PROC_LIMIT ->
    object_name_idr dev = l1 ++ l2 ->
    DRM_PROC_LIMIT
      < nid_len (nid (snd (idr_for_each l1 drm_gem_one_name_info
                             {| nid := {| nid_len := tlen gem_header;
                                          nid_eof := false |};
                                ctx := sprintf_at 0 gem_header c;
                                klog := kl |}))) ->
    exists w1,
      idr_for_each l1 drm_gem_one_name_info
        {| nid := {| nid_len := tlen gem_header; nid_eof := false |};
           ctx := sprintf_at 0 gem_header c; klog := kl |}
      = (0, w1)
      /\ nid_eof (nid w1) = true
      /\ gem_name_walk dev c kl
         = (0, {| nid := nid w1; ctx := ctx w1;
                  klog := kl ++ map (fun e => gem_info_line (snd e)) (l1 ++ l2) |})
      /\ exists n, (n <= length l1)%nat
         /\ buf (ctx w1)
            = concat (gem_header :: map (fun e => gem_row (snd e)) (firstn n l1)).
Proof.
  intros dev l1 l2 c kl Hh Hidr.
  unfold gem_name_walk. rewrite Hidr, idr_for_each_app.
  rewrite gem_walk_run by reflexivity.
  cbn [fst snd nid ctx klog nid_len nid_eof Z.eqb].
  generalize dependent gem_header. intros h Hh.
  pose proof (printed_length (map (fun e => gem_row (snd e)) l1) (tlen h) Hh)
    as HL.
  destruct (printed_prefix (map (fun e => gem_row (snd e)) l1) (tlen h))
    as [k Hk].
  destruct (printed (tlen h) (map (fun e => gem_row (snd e)) l1)) as [p o].
  cbn [fst snd] in *. intros Hover.
  destruct o; [| lia].
  eexists. split; [reflexivity |].
  cbn [nid ctx klog nid_eof]. split; [reflexivity |]. split.
  - rewrite gem_walk_done by reflexivity.
    cbn [nid ctx klog]. rewrite map_app, app_assoc. reflexivity.
  - exists (Nat.min k (length l1)). split; [apply Nat.le_min_r |].
    rewrite <- firstn_within, <- firstn_map, <- Hk.
    unfold written, sprintf_at, poke. reflexivity.
Qed.

(** *** Lengths and writes against the limit *)

(** Where printing stops at the limit, every sprintf of a call starts
    within the limit. *)
Lemma writes_start_within_limit (r : report) (dev : drm_device)
    (offset request : Z) :
  tlen gem_header <= DRM_PROC_LIMIT ->
  limited_at r = true ->
  Forall (fun w => fst w <= DRM_PROC_LIMIT)
         (writes (rr_ctx (read_proc r dev offset request))).
Proof.
  intros Hh Hl. as_observed. rewrite read_proc_expected by auto.
  unfold expected. destruct (items_of r dev); [| constructor].
  rewrite Hl. apply protocol_positions. pose proof (tlen_nonneg gem_header). lia.
Qed.




(** C5, as the code has it.  In every call of the gem_names report
    each append starts at a length within the limit, so the length is
    never more than one appended item beyond the limit: the length
    reached is where the last write ends.  Once the overflow flag is
    set the walk leaves [nid] and the buffer as they are. *)
Theorem length_within_limit_before_each_append :
  forall (dev : drm_device) (offset request : Z),
    tlen gem_header <= DRM_PROC_LIMIT ->
    Forall (fun w => fst w <= DRM_PROC_LIMIT)
           (writes (rr_ctx (read_proc R_gem_names dev offset request)))
    /\ ((writes (rr_ctx (read_proc R_gem_names dev offset request)) = []
         /\ rr_total (read_proc R_gem_names dev offset request) = 0)
        \/ exists ws pos s,
             writes (rr_ctx (read_proc R_gem_names dev offset request))
             = ws ++ [(pos, s)]
             /\ pos <= DRM_PROC_LIMIT
             /\ rr_total (read_proc R_gem_names dev offset request)
                = pos + tlen s)
    /\ forall (l : list (Z * drm_gem_object)) (w : gem_walk),
         nid_eof (nid w) = true ->
         nid (snd (idr_for_each l drm_gem_one_name_info w)) = nid w
         /\ ctx (snd (idr_for_each l drm_gem_one_name_info w)) = ctx w.
Proof.
  intros dev offset request Hh.
  pose proof (writes_start_within_limit R_gem_names dev offset request Hh
                eq_refl) as HW.
  split; [exact HW |]. split.
  - revert HW. as_observed. rewrite read_proc_expected by auto.
    unfold expected. cbn [items_of limited_at stops_at_limit]. intros HW.
    destruct (protocol_last true false (gem_names_items dev) offset request)
      as [H | (ws & pos & s & Hw & Ht)]; [left; exact H | right].
    exists ws, pos, s. repeat split; try assumption.
    rewrite Hw in HW. apply Forall_app in HW. destruct HW as [_ HW].
    inversion HW; subst. assumption.
  - intros l w He. rewrite gem_walk_done by assumption. split; reflexivity.
Qed.


(** *** The objects report *)

Lemma PAGE_SIZE_pow : 0 <= PAGE_SHIFT -> PAGE_SIZE = 2 ^ PAGE_SHIFT.
Proof.
  intros H. unfold PAGE_SIZE. rewrite Z.shiftl_mul_pow2 by assumption. lia.
Qed.

Lemma PAGE_SIZE_pos : 0 <= PAGE_SHIFT -> 0 < PAGE_SIZE.
Proof.
  intros H. rewrite PAGE_SIZE_pow by assumption.
  apply Z.pow_pos_nonneg; lia.
Qed.

Lemma to_ulong_small (z : Z) :
  5 <= BITS_PER_LONG -> 0 <= z < 32 -> to_ulong z = z.
Proof.
  intros HB Hz. unfold to_ulong. apply Z.mod_small.
  assert (2 ^ 5 <= 2 ^ BITS_PER_LONG) by (apply Z.pow_le_mono_r; lia).
  lia.
Qed.

(** C7. In the objects report the used-memory line gives pages when
    the value is above 16 pages' worth of bytes and bytes otherwise:
    the items the callback writes are the first items of the report
    whose two used-memory lines follow that rule, each on its own
    value, and a call that ends within the limit has written all of
    them.  17 pages' worth of bytes are given as 17 pages, 5 bytes as
    5 bytes. *)
Theorem objects_used_memory_rendering :
  forall (dev : drm_device) (offset request : Z),
    0 <= PAGE_SHIFT -> 5 <= BITS_PER_LONG ->
    (exists n,
       map snd (writes (rr_ctx (read_proc R_objects dev offset request)))
       = firstn n (objects_items dev))
    /\ (offset <= DRM_PROC_LIMIT ->
        rr_total (read_proc R_objects dev offset request) <= DRM_PROC_LIMIT ->
        buf (rr_ctx (read_proc R_objects dev offset request))
        = concat (objects_before dev)
          ++ used_memory_line (lit "Used object memory") []
               (used_mem (memctl dev))
          ++ used_memory_line (lit "Used emergency memory") nl
               (used_emer (memctl dev))
          ++ concat (objects_after dev))
    /\ (forall what tail v,
          16 * PAGE_SIZE < v -> used_memory_line what tail v = in_pages what v)
    /\ (forall what tail v,
          v <= 16 * PAGE_SIZE ->
          used_memory_line what tail v = in_bytes what v ++ tail)
    /\ (forall what tail,
          used_memory_line what tail (17 * PAGE_SIZE)
          = what ++ lit " is 17 pages." ++ nl)
    /\ (forall what tail,
          used_memory_line what tail 5
          = what ++ lit " is 5 bytes." ++ nl ++ tail).
Proof.
  intros dev offset request Hs HB.
  pose proof (PAGE_SIZE_pos Hs) as Hp.
  assert (Hpages : forall what tail v,
            16 * PAGE_SIZE < v -> used_memory_line what tail v = in_pages what v).
  { intros what tail v Hv. unfold used_memory_line.
    destruct (16 * PAGE_SIZE <? v) eqn:E; [reflexivity | lia]. }
  assert (Hbytes : forall what tail v,
            v <= 16 * PAGE_SIZE ->
            used_memory_line what tail v = in_bytes what v ++ tail).
  { intros what tail v Hv. unfold used_memory_line.
    destruct (16 * PAGE_SIZE <? v) eqn:E; [lia | reflexivity]. }
  split; [| split; [| split; [exact Hpages | split; [exact Hbytes | split]]]].
  - as_observed. rewrite objects_observe. apply protocol_writes.
  - intros Ho Ht. revert Ht. as_observed. rewrite objects_observe. intros Ht.
    rewrite protocol_complete by assumption.
    unfold objects_items. rewrite !concat_app. cbn [concat].
    rewrite app_nil_r, <- !app_assoc. reflexivity.
  - intros what tail. rewrite Hpages by lia. unfold in_pages.
    rewrite Z.shiftr_div_pow2, PAGE_SIZE_pow, Z.div_mul by lia.
    rewrite to_ulong_small by lia. reflexivity.
  - intros what tail. rewrite Hbytes by lia. unfold in_bytes.
    rewrite to_ulong_small by lia. rewrite <- !app_assoc. reflexivity.
Qed.

(** *** The bufs report *)

Lemma to_ulong_id (z : Z) : 0 <= z < 2 ^ BITS_PER_LONG -> to_ulong z = z.
Proof. intros H. unfold to_ulong. now apply Z.mod_small. Qed.

Lemma to_long_id (z : Z) :
  0 < BITS_PER_LONG -> 0 <= 2 * z < 2 ^ BITS_PER_LONG -> to_long z = z.
Proof.
  intros HB Hz. unfold to_long.
  assert (E : 2 ^ BITS_PER_LONG = 2 * 2 ^ (BITS_PER_LONG - 1)).
  { rewrite <- Z.pow_succ_r by lia. f_equal. lia. }
  rewrite Z.mod_small; lia.
Qed.

(** The two computed columns of a row whose products fit their types. *)
Lemma bufs_columns (e : drm_buf_entry) :
  0 <= PAGE_SHIFT -> 0 < BITS_PER_LONG -> fits e ->
  bufs_pages e = seg_count e * 2 ^ page_order e
  /\ bufs_kb e = seg_count e * 2 ^ page_order e * PAGE_SIZE / 1024.
Proof.
  intros Hs HB (Hseg & Hord & Hint & Hlong).
  pose proof (PAGE_SIZE_pos Hs) as Hp.
  assert (H2 : 0 < 2 ^ page_order e) by (apply Z.pow_pos_nonneg; lia).
  assert (H2' : 2 ^ page_order e < 2 ^ 31) by (apply Z.pow_lt_mono_r; lia).
  assert (Hpages : bufs_pages e = seg_count e * 2 ^ page_order e).
  { unfold bufs_pages. rewrite Z.shiftl_mul_pow2, Z.mul_1_l by lia.
    rewrite (int_wrap_id (2 ^ page_order e)) by (unfold is_int; lia).
    apply int_wrap_id. unfold is_int. nia. }
  split; [exact Hpages |].
  unfold bufs_kb. rewrite Hpages.
  set (x := seg_count e * 2 ^ page_order e) in *.
  assert (Hx : 0 <= x) by (subst x; nia).
  rewrite (to_ulong_id x) by nia.
  rewrite to_ulong_id by nia.
  apply to_long_id; [assumption |].
  assert (Hd : 0 <= x * PAGE_SIZE / 1024) by (apply Z.div_pos; nia).
  assert (Hq : 2 * (x * PAGE_SIZE / 1024) <= x * PAGE_SIZE).
  { pose proof (Z.mul_div_le (x * PAGE_SIZE) 1024 ltac:(lia)). lia. }
  lia.
Qed.

(** C8, as the code has it.  The items the bufs callback writes are
    the first items of: the header, one row for each allocation order
    whose buffer count is not zero and none for the others, then the
    list of buffers; a call that ends within the limit has written all
    of them.  In a row the pages column is
    seg_count * 2^page_order and the kB column is
    seg_count * 2^page_order * PAGE_SIZE / 1024 whenever these products
    fit an int and an unsigned long. *)
Theorem bufs_rows_and_columns :
  forall (dev : drm_device) (d : drm_device_dma) (offset request : Z),
    dma dev = Some d ->
    (exists n,
       map snd (writes (rr_ctx (read_proc R_bufs dev offset request)))
       = firstn n ([bufs_header] ++ bufs_rows d ++ [nl] ++ bufs_buffers d ++ [nl]))
    /\ (offset <= DRM_PROC_LIMIT ->
        rr_total (read_proc R_bufs dev offset request) <= DRM_PROC_LIMIT ->
        buf (rr_ctx (read_proc R_bufs dev offset request))
        = bufs_header ++ concat (bufs_rows d) ++ nl
          ++ concat (bufs_buffers d) ++ nl)
    /\ bufs_rows d
       = flat_map
           (fun i => if negb (buf_count (nth i (bufs d) null_entry) =? 0)
                     then [bufs_row i (nth i (bufs d) null_entry)] else [])
           (seq 0 (S DRM_MAX_ORDER))
    /\ (forall e, 0 <= PAGE_SHIFT -> 0 < BITS_PER_LONG -> fits e ->
          bufs_pages e = seg_count e * 2 ^ page_order e
          /\ bufs_kb e = seg_count e * 2 ^ page_order e * PAGE_SIZE / 1024).
Proof.
  intros dev d offset request Hd.
  split; [| split; [| split]].
  - as_observed. rewrite (bufs_observe dev d) by assumption.
    apply protocol_writes.
  - intros Ho Ht. revert Ht. as_observed.
    rewrite (bufs_observe dev d) by assumption. intros Ht.
    rewrite protocol_complete by assumption.
    unfold bufs_items. rewrite !concat_app. cbn [concat app].
    rewrite !app_nil_r. reflexivity.
  - apply bufs_rows_by_order.
  - apply bufs_columns.
Qed.

(** *** Reading a report in chunks *)

Lemma read_expected (r : report) (dev : drm_device) (offset request : Z) :
  (r = R_gem_names -> tlen gem_header <= DRM_PROC_LIMIT) ->
  read r dev offset request
  = read_of (expected r dev offset request) offset request.
Proof.
  intros Hg. rewrite read_as_observed, read_proc_expected by assumption.
  reflexivity.
Qed.

(** The length of the gem_names report includes its header. *)
Lemma gem_header_within (dev : drm_device) :
  total_length R_gem_names dev <= DRM_PROC_LIMIT ->
  tlen gem_header <= DRM_PROC_LIMIT.
Proof.
  unfold total_length, read_proc, drm_gem_name_info, gem_name_walk.
  destruct (0 >? DRM_PROC_LIMIT) eqn:E0; [cbn; lia |].
  rewrite gem_walk_run by reflexivity.
  cbn [snd nid nid_len].
  generalize gem_header. intros h.
  match goal with
  | |- context [tlen (concat ?p)] => pose proof (tlen_nonneg (concat p))
  end.
  match goal with |- context [if ?b then _ else _] => destruct b end;
    cbn [rr_total nid_len]; lia.
Qed.

(** A read inside a report all of whose items have been printed. *)
Lemma protocol_inside (limited stops : bool) (items : list text)
    (offset k : Z) :
  snd (printed_if limited 0 items) = false ->
  offset <= DRM_PROC_LIMIT ->
  0 <= offset <= tlen (concat items) -> 0 <= k ->
  read_of (protocol limited stops items offset k) offset k
  = if tlen (concat items) >? k + offset
    then Data (firstn (Z.to_nat k) (skipn (Z.to_nat offset) (concat items)))
              false
    else Data (skipn (Z.to_nat offset) (concat items)) true.
Proof.
  intros Hs Hl Ho Hk. unfold protocol.
  destruct (offset >? DRM_PROC_LIMIT) eqn:E; [lia |].
  pose proof (printed_if_all limited items 0 Hs) as HA.
  destruct (printed_if limited 0 items) as [p o]. cbn [fst snd] in *.
  subst o p. rewrite andb_false_r. cbn [orb].
  destruct (tlen (concat items) >? k + offset) eqn:En; cbn [negb];
    unfold read_of; cbn [o_ret o_buf o_eof].
  - destruct (k <? 0) eqn:Ek; [lia |]. now rewrite Z.min_id.
  - destruct (tlen (concat items) - offset <? 0) eqn:Ek; [lia |].
    f_equal. apply firstn_all2. rewrite length_skipn.
    rewrite Z.min_l by lia. unfold tlen in *. lia.
Qed.

Lemma read_chunks_inside (r : report) (dev : drm_device) (items : list text)
    (k : Z) :
  (r = R_gem_names -> tlen gem_header <= DRM_PROC_LIMIT) ->
  items_of r dev = Some items ->
  snd (printed_if (limited_at r) 0 items) = false ->
  tlen (concat items) <= DRM_PROC_LIMIT ->
  1 <= k ->
  forall (fuel : nat) (offset : Z),
    0 <= offset <= tlen (concat items) ->
    (Z.to_nat (tlen (concat items) - offset) < fuel)%nat ->
    read_chunks fuel r dev k offset
    = Some (skipn (Z.to_nat offset) (concat items)).
Proof.
  intros Hg Hi Hs Hl Hk.
  induction fuel as [| fuel IH]; intros offset Ho Hf; [lia |].
  cbn [read_chunks]. rewrite read_expected by assumption.
  unfold expected. rewrite Hi.
  rewrite protocol_inside by (assumption || lia).
  destruct (tlen (concat items) >? k + offset) eqn:En; [| reflexivity].
  rewrite IH by lia. f_equal.
  rewrite Z2Nat.inj_add by lia.
  rewrite Nat.add_comm, <- skipn_skipn. apply firstn_skipn.
Qed.

Lemma read_of_nothing (offset request : Z) :
  read_of {| o_ret := 0; o_total := 0; o_buf := []; o_eof := true;
             o_writes := [] |} offset request
  = Data [] true.
Proof.
  unfold read_of. cbn [o_ret o_buf o_eof Z.ltb Z.compare].
  now rewrite skipn_nil, firstn_nil.
Qed.

Lemma chunks_and_whole (r : report) (dev : drm_device) (k : Z) (fuel : nat)
    (B : text) (T : Z) :
  (r = R_gem_names -> tlen gem_header <= DRM_PROC_LIMIT) ->
  o_total (expected r dev 0 0) = T ->
  o_buf (expected r dev 0 0) = B ->
  read_chunks fuel r dev k 0 = Some B ->
  read_of (expected r dev 0 T) 0 T = Data B true ->
  read_chunks fuel r dev k 0 = read_whole r dev
  /\ read_whole r dev = Some (buf (rr_ctx (read_proc r dev 0 0))).
Proof.
  intros Hg Ht Hb Hc Hw.
  assert (E : read_whole r dev = Some B).
  { unfold read_whole, total_length. as_observed.
    rewrite read_proc_expected, Ht, read_expected, Hw by assumption.
    reflexivity. }
  rewrite E, Hc. split; [reflexivity |].
  as_observed. rewrite read_proc_expected, Hb by assumption. reflexivity.
Qed.

Lemma chunks_end_at_once (r : report) (dev : drm_device) (k : Z) (fuel : nat)
    (B : text) :
  (r = R_gem_names -> tlen gem_header <= DRM_PROC_LIMIT) ->
  read_of (expected r dev 0 k) 0 k = Data B true ->
  read_chunks (S fuel) r dev k 0 = Some B.
Proof.
  intros Hg H. cbn [read_chunks]. rewrite read_expected, H by assumption.
  reflexivity.
Qed.

(** C3, as the code has it.  For every report whose length is within
    the limit and every chunk size [k >= 1], reading at offsets 0, k,
    2k, ... until a call signals the end of the report and joining the
    chunks gives the same bytes as one read of the whole length at
    offset 0, namely the whole text the callback has generated. *)
Theorem chunked_read_is_whole_read :
  forall (r : report) (dev : drm_device) (k : Z) (fuel : nat),
    1 <= k ->
    total_length r dev <= DRM_PROC_LIMIT ->
    (Z.to_nat (total_length r dev) < fuel)%nat ->
    read_chunks fuel r dev k 0 = read_whole r dev
    /\ read_whole r dev = Some (buf (rr_ctx (read_proc r dev 0 0))).
Proof.
  intros r dev k fuel Hk Hlim Hfuel.
  assert (Hg : r = R_gem_names -> tlen gem_header <= DRM_PROC_LIMIT).
  { intros ->. now apply (gem_header_within dev). }
  assert (Htot : total_length r dev = o_total (expected r dev 0 0)).
  { unfold total_length. as_observed. now rewrite read_proc_expected. }
  rewrite Htot in Hlim, Hfuel. clear Htot.
  destruct fuel as [| fuel]; [lia |].
  assert (Hnone : (forall req, expected r dev 0 req
                    = {| o_ret := 0; o_total := 0; o_buf := []; o_eof := true;
                         o_writes := [] |}) ->
                  read_chunks (S fuel) r dev k 0 = read_whole r dev
                  /\ read_whole r dev = Some (buf (rr_ctx (read_proc r dev 0 0)))).
  { intros Hex.
    apply (chunks_and_whole r dev k (S fuel) [] 0 Hg);
      try (rewrite Hex; reflexivity).
    apply chunks_end_at_once; [assumption |]. rewrite Hex.
    apply read_of_nothing. }
  destruct (items_of r dev) as [items |] eqn:Hi.
  2:{ apply Hnone. intros req. unfold expected. now rewrite Hi. }
  destruct (0 >? DRM_PROC_LIMIT) eqn:E0.
  { apply Hnone. intros req. unfold expected, protocol. now rewrite Hi, E0. }
  pose proof (printed_if_length (limited_at r) items 0 ltac:(intros; lia)) as HL.
  pose proof (printed_if_all (limited_at r) items 0) as HA.
  assert (Hex : o_total (expected r dev 0 0)
                = tlen (concat (fst (printed_if (limited_at r) 0 items)))
                /\ o_buf (expected r dev 0 0)
                   = concat (fst (printed_if (limited_at r) 0 items))).
  { unfold expected, protocol. rewrite Hi, E0.
    destruct (printed_if (limited_at r) 0 items) as [p o]. cbn [fst].
    match goal with |- context [if ?b then _ else _] => destruct b end;
      split; reflexivity. }
  destruct Hex as [Ht0 Hb0]. rewrite Ht0 in Hlim, Hfuel.
  assert (Ho : snd (printed_if (limited_at r) 0 items) = false).
  { destruct (snd (printed_if (limited_at r) 0 items)); [| reflexivity].
    destruct HL as [_ HL]. lia. }
  rewrite (HA Ho) in Ht0, Hb0, Hlim, Hfuel.
  pose proof (tlen_nonneg (concat items)) as Hn.
  apply (chunks_and_whole r dev k (S fuel) (concat items) (tlen (concat items))
           Hg Ht0 Hb0).
  - rewrite (read_chunks_inside r dev items k Hg Hi Ho Hlim Hk (S fuel) 0)
      by lia.
    reflexivity.
  - unfold expected. rewrite Hi.
    rewrite protocol_inside by (assumption || lia).
    destruct (tlen (concat items) >? tlen (concat items) + 0) eqn:El; [lia |].
    reflexivity.
Qed.

(** ** Further properties of the code *)

(** *** Registration and removal *)

Lemma text_eqb_refl (a : text) : text_eqb a a = true.
Proof.
  induction a as [| x a IH]; simpl; [reflexivity |].
  now rewrite Ascii.eqb_refl.
Qed.

Lemma text_eqb_eq (a b : text) : text_eqb a b = true -> a = b.
Proof.
  revert b. induction a as [| x a IH]; intros [| y b] H; simpl in H;
    try discriminate; [reflexivity |].
  apply andb_true_iff in H. destruct H as [Hx Hr].
  apply Ascii.eqb_eq in Hx. subst. f_equal. now apply IH.
Qed.

Lemma text_eqb_neq (a b : text) : a <> b -> text_eqb a b = false.
Proof.
  intros H. destruct (text_eqb a b) eqn:E; [| reflexivity].
  apply text_eqb_eq in E. contradiction.
Qed.

Lemma filter_twice {A} (f g : A -> bool) (l : list A) :
  filter f (filter g l) = filter (fun x => g x && f x) l.
Proof.
  induction l as [| a l IH]; simpl; [reflexivity |].
  destruct (g a); simpl; [destruct (f a) |]; now rewrite IH.
Qed.

Lemma filter_none {A} (f : A -> bool) (l : list A) :
  (forall a, In a l -> f a = false) -> filter f l = [].
Proof.
  induction l as [| a l IH]; intros H; simpl; [reflexivity |].
  rewrite (H a) by now left. apply IH. intros b Hb. apply H. now right.
Qed.

Lemma filter_all {A} (f : A -> bool) (l : list A) :
  (forall a, In a l -> f a = true) -> filter f l = l.
Proof.
  induction l as [| a l IH]; intros H; simpl; [reflexivity |].
  rewrite (H a) by now left. f_equal. apply IH. intros b Hb. apply H. now right.
Qed.

(** The loop of drm_proc_init when no creation fails. *)
Lemma proc_init_entries_ok (create_ok : nat -> bool) (name : text) :
  forall (todo : list nat) (minor : drm_minor) (fs : proc_fs),
    (forall i, In i todo -> create_ok i = true) ->
    proc_init_entries create_ok name todo minor fs
    = (0, minor,
       {| dirs := dirs fs;
          entries := entries fs ++ map (fun i => (name, entry_name i)) todo;
          removals := removals fs |}).
Proof.
  induction todo as [| i todo IH]; intros minor fs H.
  - simpl. rewrite app_nil_r. destruct fs; reflexivity.
  - cbn [proc_init_entries]. rewrite (H i) by now left.
    rewrite IH by (intros j Hj; apply H; now right).
    unfold create_proc_entry. cbn [dirs entries removals map].
    rewrite <- app_assoc. reflexivity.
Qed.

Lemma rollback_keeps_dirs (name d : text) (l : list nat) : forall fs,
  dirs (fold_left (fun fs' (j : nat) => remove_proc_entry name (Some d) fs') l fs)
  = dirs fs.
Proof.
  induction l as [| j l IH]; intros fs; simpl; [reflexivity |].
  now rewrite IH.
Qed.

(** The loop of drm_proc_init when some creation fails. *)
Lemma proc_init_entries_fail (create_ok : nat -> bool) (name d : text) :
  forall (todo : list nat) (minor : drm_minor) (fs : proc_fs),
    dev_root minor = Some d ->
    forallb create_ok todo = false ->
    fst (fst (proc_init_entries create_ok name todo minor fs)) = -1
    /\ dev_root (snd (fst (proc_init_entries create_ok name todo minor fs)))
       = None
    /\ minor_index (snd (fst (proc_init_entries create_ok name todo minor fs)))
       = minor_index minor
    /\ ~ In name (dirs (snd (proc_init_entries create_ok name todo minor fs))).
Proof.
  induction todo as [| i todo IH]; intros minor fs Hd Hf; [discriminate |].
  cbn [proc_init_entries forallb] in *.
  destruct (create_ok i) eqn:Ei.
  - apply IH; assumption.
  - cbn [fst snd dev_root minor_index]. repeat split.
    rewrite Hd. unfold remove_proc_entry at 1. cbn [dirs].
    rewrite rollback_keeps_dirs. intros Hin.
    apply filter_In in Hin. destruct Hin as [_ Hne].
    rewrite text_eqb_refl in Hne. discriminate.
Qed.

Lemma drm_proc_init_ok (create_ok : nat -> bool) (minor : drm_minor)
      (minor_id : Z) (fs : proc_fs) :
  (forall i, (i < DRM_PROC_ENTRIES)%nat -> create_ok i = true) ->
  drm_proc_init true create_ok minor minor_id fs
  = (0,
     {| minor_index := minor_index minor; dev_root := Some (dec minor_id) |},
     {| dirs := dirs fs ++ [dec minor_id];
        entries :=
          entries fs
          ++ map (fun i => (dec minor_id, entry_name i))
               (seq 0 DRM_PROC_ENTRIES);
        removals := removals fs |}).
Proof.
  intros H. unfold drm_proc_init.
  rewrite proc_init_entries_ok; [reflexivity |].
  intros i Hi. apply in_seq in Hi. apply H. lia.
Qed.

(** When proc_mkdir and every create_proc_entry succeed, drm_proc_init
    returns 0, stores the directory in [dev_root] and has added, under
    the directory named after [minor_id], one entry for every element
    of the proc list, in the order of the list; nothing is removed and
    what procfs held before is still there. *)
Theorem drm_proc_init_registers_all :
  forall (create_ok : nat -> bool) (minor : drm_minor) (minor_id : Z)
         (fs : proc_fs),
    (forall i, (i < DRM_PROC_ENTRIES)%nat -> create_ok i = true) ->
    let res := drm_proc_init true create_ok minor minor_id fs in
    fst (fst res) = 0
    /\ dev_root (snd (fst res)) = Some (dec minor_id)
    /\ dirs (snd res) = dirs fs ++ [dec minor_id]
    /\ entries (snd res)
       = entries fs
         ++ map (fun e => (dec minor_id, fst e)) drm_proc_list
    /\ removals (snd res) = removals fs.
Proof.
  intros create_ok minor minor_id fs H res. subst res.
  rewrite drm_proc_init_ok by assumption. cbn [fst snd dev_root dirs entries removals].
  repeat split.
Qed.

(** drm_proc_init returns 0 exactly when proc_mkdir and every
    create_proc_entry succeed, and then [dev_root] is the directory;
    in every other case it returns -1, [dev_root] is NULL and, if the
    directory had been made, no directory of that name is left.  The
    index of the minor is never changed. *)
Theorem drm_proc_init_result :
  forall (mkdir_ok : bool) (create_ok : nat -> bool) (minor : drm_minor)
         (minor_id : Z) (fs : proc_fs),
    (fst (fst (drm_proc_init mkdir_ok create_ok minor minor_id fs)) = 0
     <-> mkdir_ok = true
         /\ forall i, (i < DRM_PROC_ENTRIES)%nat -> create_ok i = true)
    /\ (fst (fst (drm_proc_init mkdir_ok create_ok minor minor_id fs)) = 0 ->
        dev_root (snd (fst (drm_proc_init mkdir_ok create_ok minor minor_id fs)))
        = Some (dec minor_id))
    /\ (fst (fst (drm_proc_init mkdir_ok create_ok minor minor_id fs)) <> 0 ->
        fst (fst (drm_proc_init mkdir_ok create_ok minor minor_id fs)) = -1
        /\ dev_root
             (snd (fst (drm_proc_init mkdir_ok create_ok minor minor_id fs)))
           = None
        /\ (mkdir_ok = true ->
            ~ In (dec minor_id)
                (dirs (snd (drm_proc_init mkdir_ok create_ok minor minor_id fs)))))
    /\ minor_index
         (snd (fst (drm_proc_init mkdir_ok create_ok minor minor_id fs)))
       = minor_index minor.
Proof.
  intros mkdir_ok create_ok minor minor_id fs.
  destruct mkdir_ok.
  2:{ unfold drm_proc_init. cbn [fst snd dev_root minor_index].
      repeat split; try discriminate; try lia;
        try (intros [H _]; discriminate). }
  destruct (forallb create_ok (seq 0 DRM_PROC_ENTRIES)) eqn:Ef.
  - assert (Hall : forall i, (i < DRM_PROC_ENTRIES)%nat -> create_ok i = true).
    { intros i Hi. rewrite forallb_forall in Ef. apply Ef, in_seq. lia. }
    rewrite drm_proc_init_ok by assumption.
    cbn [fst snd dev_root minor_index].
    split; [split; [intros _; split; [reflexivity | exact Hall]
                   | reflexivity] |].
    split; [reflexivity |].
    split; [intros Hne; contradiction | reflexivity].
  - unfold drm_proc_init.
    destruct (proc_init_entries_fail create_ok (dec minor_id) (dec minor_id)
                (seq 0 DRM_PROC_ENTRIES)
                {| minor_index := minor_index minor;
                   dev_root := Some (dec minor_id) |}
                (proc_mkdir (dec minor_id) fs) eq_refl Ef)
      as (Hr & Hd & Hi & Hn).
    rewrite Hr, Hd, Hi. cbn [minor_index].
    split; [split; [discriminate |] |].
    { intros [_ Hall].
      assert (forallb create_ok (seq 0 DRM_PROC_ENTRIES) = true).
      { apply forallb_forall. intros i Hin. apply in_seq in Hin.
        apply Hall. lia. }
      congruence. }
    split; [discriminate |].
    split; [| reflexivity].
    intros _. split; [reflexivity |]. split; [reflexivity |].
    intros _. exact Hn.
Qed.

(** The loop of drm_proc_cleanup over the indices [idx]. *)
Lemma cleanup_loop (d : text) : forall (idx : list nat) (fs : proc_fs),
  dirs (fold_left
          (fun fs' (i : nat) => remove_proc_entry (entry_name i) (Some d) fs')
          idx fs)
  = dirs fs
  /\ entries (fold_left
                (fun fs' (i : nat) =>
                   remove_proc_entry (entry_name i) (Some d) fs')
                idx fs)
     = filter
         (fun e => negb (text_eqb (fst e) d
                         && existsb (fun i => text_eqb (snd e) (entry_name i))
                                    idx))
         (entries fs).
Proof.
  induction idx as [| i idx IH]; intros fs.
  - simpl. split; [reflexivity |].
    symmetry. apply filter_all. intros e _. now rewrite andb_false_r.
  - cbn [fold_left]. destruct (IH (remove_proc_entry (entry_name i) (Some d) fs))
      as [Hd He].
    split; [rewrite Hd; reflexivity |].
    rewrite He. unfold remove_proc_entry. cbn [entries].
    rewrite filter_twice. apply filter_ext. intros e. cbn [existsb].
    destruct (text_eqb (fst e) d), (text_eqb (snd e) (entry_name i)),
      (existsb (fun i0 => text_eqb (snd e) (entry_name i0)) idx); reflexivity.
Qed.

(** What drm_proc_cleanup removes when [root] and [dev_root] are set. *)
Lemma drm_proc_cleanup_removes (minor : drm_minor) (d : text) (fs : proc_fs) :
  dev_root minor = Some d ->
  fst (drm_proc_cleanup minor true fs) = 0
  /\ dirs (snd (drm_proc_cleanup minor true fs))
     = filter (fun x => negb (text_eqb x (dec (minor_index minor)))) (dirs fs)
  /\ entries (snd (drm_proc_cleanup minor true fs))
     = filter (kept_by_cleanup d) (entries fs).
Proof.
  intros Hd. unfold drm_proc_cleanup. rewrite Hd. cbn [negb orb fst snd].
  destruct (cleanup_loop d (seq 0 DRM_PROC_ENTRIES) fs) as [H1 H2].
  unfold remove_proc_entry at 1 3. cbn [dirs entries].
  rewrite H1, H2. repeat split.
Qed.

(** After a drm_proc_init in which nothing failed, drm_proc_cleanup
    undoes the registration: when [minor_id] is the index of the minor
    and procfs had no directory of that name and no entry under it,
    the directories and the entries are again those before the two
    calls. *)
Theorem drm_proc_init_then_cleanup :
  forall (create_ok : nat -> bool) (minor : drm_minor) (fs : proc_fs),
    (forall i, (i < DRM_PROC_ENTRIES)%nat -> create_ok i = true) ->
    ~ In (dec (minor_index minor)) (dirs fs) ->
    (forall e, In e (entries fs) -> fst e <> dec (minor_index minor)) ->
    fst (drm_proc_cleanup
           (snd (fst (drm_proc_init true create_ok minor (minor_index minor) fs)))
           true
           (snd (drm_proc_init true create_ok minor (minor_index minor) fs)))
    = 0
    /\ dirs (snd (drm_proc_cleanup
                    (snd (fst (drm_proc_init true create_ok minor
                                 (minor_index minor) fs)))
                    true
                    (snd (drm_proc_init true create_ok minor
                            (minor_index minor) fs))))
       = dirs fs
    /\ entries (snd (drm_proc_cleanup
                       (snd (fst (drm_proc_init true create_ok minor
                                    (minor_index minor) fs)))
                       true
                       (snd (drm_proc_init true create_ok minor
                               (minor_index minor) fs))))
       = entries fs.
Proof.
  intros create_ok minor fs Hall Hdir Hent.
  rewrite drm_proc_init_ok by assumption. cbn [fst snd].
  set (name := dec (minor_index minor)) in *.
  destruct (drm_proc_cleanup_removes
              {| minor_index := minor_index minor; dev_root := Some name |}
              name
              {| dirs := dirs fs ++ [name];
                 entries :=
                   entries fs
                   ++ map (fun i => (name, entry_name i)) (seq 0 DRM_PROC_ENTRIES);
                 removals := removals fs |} eq_refl)
    as (H0 & H1 & H2).
  rewrite H0, H1, H2. cbn [dirs entries minor_index]. fold name.
  split; [reflexivity |]. split.
  - rewrite filter_app. cbn [filter]. rewrite text_eqb_refl. cbn [negb].
    rewrite app_nil_r. apply filter_all. intros x Hx.
    rewrite text_eqb_neq; [reflexivity |]. intros ->. contradiction.
  - rewrite filter_app. rewrite (filter_all _ (entries fs)).
    + rewrite filter_none; [apply app_nil_r |].
      intros e He. apply in_map_iff in He. destruct He as (i & <- & Hi).
      unfold kept_by_cleanup. cbn [fst snd]. rewrite text_eqb_refl.
      cbn [andb]. apply negb_false_iff, existsb_exists.
      exists i. split; [assumption | apply text_eqb_refl].
    + intros e He. unfold kept_by_cleanup.
      rewrite (text_eqb_neq (fst e) name) by now apply Hent. reflexivity.
Qed.

(** drm_proc_cleanup always returns 0 and never adds anything; it
    leaves in place every entry that is not under the directory of the
    minor and every directory that is not named after the index of the
    minor. *)
Theorem drm_proc_cleanup_frame :
  forall (minor : drm_minor) (root_present : bool) (fs : proc_fs),
    fst (drm_proc_cleanup minor root_present fs) = 0
    /\ (forall e, In e (entries (snd (drm_proc_cleanup minor root_present fs))) ->
                  In e (entries fs))
    /\ (forall x, In x (dirs (snd (drm_proc_cleanup minor root_present fs))) ->
                  In x (dirs fs))
    /\ (forall e, In e (entries fs) -> dev_root minor <> Some (fst e) ->
                  In e (entries (snd (drm_proc_cleanup minor root_present fs))))
    /\ (forall x, In x (dirs fs) -> x <> dec (minor_index minor) ->
                  In x (dirs (snd (drm_proc_cleanup minor root_present fs)))).
Proof.
  intros minor root_present fs.
  destruct root_present, (dev_root minor) as [d |] eqn:Hd;
    try (unfold drm_proc_cleanup; rewrite ?Hd; cbn [negb orb fst snd];
         repeat split; auto; fail).
  destruct (drm_proc_cleanup_removes minor d fs Hd) as (H0 & H1 & H2).
  rewrite H0, H1, H2. split; [reflexivity |]. repeat split.
  - intros e He. now apply filter_In in He.
  - intros x Hx. now apply filter_In in Hx.
  - intros e He Hne. apply filter_In. split; [assumption |].
    unfold kept_by_cleanup. rewrite text_eqb_neq; [reflexivity |].
    intros E. apply Hne. now rewrite E.
  - intros x Hx Hne. apply filter_In. split; [assumption |].
    now rewrite text_eqb_neq.
Qed.


(** *** What a call generates *)

Lemma protocol_text (limited stops : bool) (items : list text)
    (offset request : Z) :
  offset <= DRM_PROC_LIMIT ->
  o_buf (protocol limited stops items offset request)
  = concat (fst (printed_if limited 0 items))
  /\ o_total (protocol limited stops items offset request)
     = tlen (concat (fst (printed_if limited 0 items)))
  /\ o_writes (protocol limited stops items offset request)
     = positions 0 (fst (printed_if limited 0 items)).
Proof.
  intros Ho. unfold protocol.
  destruct (offset >? DRM_PROC_LIMIT) eqn:E; [lia |].
  destruct (printed_if limited 0 items) as [p o]. cbn [fst].
  match goal with |- context [if ?b then _ else _] => destruct b end;
    repeat split.
Qed.

(** The gem_names callback within the limit of offsets, read off its
    code. *)
Lemma gem_names_generated (dev : drm_device) (offset request : Z) :
  offset <= DRM_PROC_LIMIT ->
  buf (rr_ctx (read_proc R_gem_names dev offset request))
  = concat (gem_header
            :: fst (printed (tlen gem_header)
                      (map (fun e => gem_row (snd e)) (object_name_idr dev))))
  /\ rr_total (read_proc R_gem_names dev offset request)
     = tlen (concat
               (gem_header
                :: fst (printed (tlen gem_header)
                          (map (fun e => gem_row (snd e))
                             (object_name_idr dev)))))
  /\ writes (rr_ctx (read_proc R_gem_names dev offset request))
     = positions 0
         (gem_header
          :: fst (printed (tlen gem_header)
                    (map (fun e => gem_row (snd e)) (object_name_idr dev))))
  /\ eof (rr_ctx (read_proc R_gem_names dev offset request))
     = negb (rr_total (read_proc R_gem_names dev offset request)
             >? request + offset)
  /\ rr_ret (read_proc R_gem_names dev offset request)
     = if rr_total (read_proc R_gem_names dev offset request)
          >? request + offset
       then request
       else rr_total (read_proc R_gem_names dev offset request) - offset.
Proof.
  intros Ho.
  remember (read_proc R_gem_names dev offset request) as res eqn:Hres.
  unfold read_proc, drm_gem_name_info, gem_name_walk in Hres.
  destruct (offset >? DRM_PROC_LIMIT) eqn:E; [lia |].
  rewrite gem_walk_run in Hres by reflexivity.
  cbn [snd nid ctx nid_len] in Hres.
  revert Hres. generalize gem_header. intros h Hres.
  destruct (printed (tlen h) (map (fun e => gem_row (snd e)) (object_name_idr dev)))
    as [p o].
  cbn [fst snd concat positions] in *.
  rewrite tlen_app.
  destruct (tlen h + tlen (concat p) >? request + offset) eqn:En;
    subst res; cbn [rr_ret rr_total rr_ctx buf eof writes set_eof set_start
                    written sprintf_at fresh_ctx poke nid_len app];
    rewrite En; repeat split.
Qed.

Lemma beyond_limit_run (r : report) (dev : drm_device) (offset request : Z) :
  DRM_PROC_LIMIT < offset ->
  rr_ret (read_proc r dev offset request) = 0
  /\ rr_total (read_proc r dev offset request) = 0
  /\ rr_ctx (read_proc r dev offset request)
     = set_eof true (fresh_ctx (queuelist dev)).
Proof.
  intros Ho.
  assert (E : (offset >? DRM_PROC_LIMIT) = true) by lia.
  destruct r; unfold read_proc, of_call, call;
    try (unfold drm_name_info, drm__vm_info, drm__clients_info,
           drm__queues_info, drm__objects_info, drm_gem_object_info;
         unfold bind at 1, modify; unfold bind at 1, proc_head;
         rewrite E; repeat split).
  - unfold drm__bufs_info. destruct (dma dev).
    + unfold bind at 1, modify. unfold bind at 1, proc_head.
      rewrite E. repeat split.
    + unfold bind, modify. repeat split.
  - unfold drm_gem_name_info. rewrite E. repeat split.
Qed.

(** With an offset beyond the limit no report is generated: every
    callback returns 0 and signals the end of the report, and has
    written nothing, touched no queue and not set [*start]; the reader
    gets no byte and the end of the report. *)
Theorem read_beyond_limit :
  forall (r : report) (dev : drm_device) (offset request : Z),
    DRM_PROC_LIMIT < offset ->
    rr_ret (read_proc r dev offset request) = 0
    /\ rr_total (read_proc r dev offset request) = 0
    /\ rr_ctx (read_proc r dev offset request)
       = set_eof true (fresh_ctx (queuelist dev))
    /\ read r dev offset request = Data [] true.
Proof.
  intros r dev offset request Ho.
  destruct (beyond_limit_run r dev offset request Ho) as (Hr & Ht & Hc).
  repeat split; try assumption.
  unfold read, read_bytes. rewrite Hr, Hc. cbn [Z.ltb Z.compare buf set_eof fresh_ctx].
  now rewrite skipn_nil, firstn_nil.
Qed.

(** Every call with an offset within the limit regenerates the same
    text from the start, whatever the offset and the number of bytes
    asked for: the buffer, the length reached and the writes made do
    not depend on them. *)
Theorem regenerated_whatever_the_offset :
  forall (r : report) (dev : drm_device) (offset request offset' request' : Z),
    offset <= DRM_PROC_LIMIT -> offset' <= DRM_PROC_LIMIT ->
    buf (rr_ctx (read_proc r dev offset request))
    = buf (rr_ctx (read_proc r dev offset' request'))
    /\ rr_total (read_proc r dev offset request)
       = rr_total (read_proc r dev offset' request')
    /\ writes (rr_ctx (read_proc r dev offset request))
       = writes (rr_ctx (read_proc r dev offset' request')).
Proof.
  intros r dev offset request offset' request' Ho Ho'.
  assert (Hgen : r <> R_gem_names ->
            buf (rr_ctx (read_proc r dev offset request))
            = buf (rr_ctx (read_proc r dev offset' request'))
            /\ rr_total (read_proc r dev offset request)
               = rr_total (read_proc r dev offset' request')
            /\ writes (rr_ctx (read_proc r dev offset request))
               = writes (rr_ctx (read_proc r dev offset' request'))).
  { intros Hr. as_observed.
    rewrite !read_proc_expected by (intros; contradiction).
    unfold expected. destruct (items_of r dev) as [items |];
      [| repeat split].
    destruct (protocol_text (limited_at r) (stops_at_limit r) items offset
                request Ho)
      as (H1 & H2 & H3).
    destruct (protocol_text (limited_at r) (stops_at_limit r) items offset'
                request' Ho')
      as (H4 & H5 & H6).
    rewrite H1, H2, H3, H4, H5, H6. repeat split. }
  destruct r; try (apply Hgen; discriminate).
  destruct (gem_names_generated dev offset request Ho) as (H1 & H2 & H3 & _).
  destruct (gem_names_generated dev offset' request' Ho') as (H4 & H5 & H6 & _).
  rewrite H1, H2, H3, H4, H5, H6. repeat split.
Qed.

Lemma protocol_shape (limited stops : bool) (items : list text)
    (offset request : Z) :
  exists n,
    o_buf (protocol limited stops items offset request) = concat (firstn n items)
    /\ o_total (protocol limited stops items offset request)
       = tlen (concat (firstn n items))
    /\ o_writes (protocol limited stops items offset request)
       = positions 0 (firstn n items).
Proof.
  destruct (Z_le_gt_dec offset DRM_PROC_LIMIT) as [Ho | Ho].
  - destruct (protocol_text limited stops items offset request Ho)
      as (H1 & H2 & H3).
    destruct (printed_if_prefix limited items 0) as [k Hk].
    exists k. rewrite H1, H2, H3, Hk. repeat split.
  - exists 0%nat. unfold protocol.
    assert (E : (offset >? DRM_PROC_LIMIT) = true) by lia.
    rewrite E. repeat split.
Qed.

Lemma complete_within_limit (r : report) (dev : drm_device)
      (offset request : Z) (items : list text) :
  items_of r dev = Some items ->
  offset <= DRM_PROC_LIMIT ->
  rr_total (read_proc r dev offset request) <= DRM_PROC_LIMIT ->
  buf (rr_ctx (read_proc r dev offset request)) = concat items.
Proof.
  intros Hi Ho.
  assert (Hgen : r <> R_gem_names ->
            rr_total (read_proc r dev offset request) <= DRM_PROC_LIMIT ->
            buf (rr_ctx (read_proc r dev offset request)) = concat items).
  { intros Hr. as_observed.
    rewrite !read_proc_expected by (intros; contradiction).
    unfold expected. rewrite Hi. intros Ht. now apply protocol_complete. }
  destruct r; try (apply Hgen; discriminate).
  destruct (gem_names_generated dev offset request Ho) as (H1 & H2 & _).
  rewrite H1, H2. cbn [items_of] in Hi. inversion Hi; subst.
  unfold gem_names_items. cbn [concat]. rewrite tlen_app.
  pose proof (tlen_nonneg gem_header) as Hh.
  set (rows := map (fun e => gem_row (snd e)) (object_name_idr dev)).
  pose proof (tlen_nonneg (concat (fst (printed (tlen gem_header) rows)))) as Hp.
  intros Ht.
  pose proof (printed_length rows (tlen gem_header) ltac:(lia)) as HL.
  pose proof (printed_all rows (tlen gem_header)) as HA.
  destruct (snd (printed (tlen gem_header) rows)); [lia |].
  now rewrite HA.
Qed.

(** The buffer of a call always holds whole items: it is the text of
    the first items of the report, written one after the other from
    position 0 on, and the length the callback has reached is the
    length of that text.  A call that ends within the limit has
    written all the items. *)
Theorem buffer_holds_whole_items :
  forall (r : report) (dev : drm_device) (offset request : Z),
    rr_total (read_proc r dev offset request)
    = tlen (buf (rr_ctx (read_proc r dev offset request)))
    /\ forall items, items_of r dev = Some items ->
         (exists n,
             buf (rr_ctx (read_proc r dev offset request))
             = concat (firstn n items)
             /\ writes (rr_ctx (read_proc r dev offset request))
                = positions 0 (firstn n items))
         /\ (offset <= DRM_PROC_LIMIT ->
             rr_total (read_proc r dev offset request) <= DRM_PROC_LIMIT ->
             buf (rr_ctx (read_proc r dev offset request)) = concat items).
Proof.
  intros r dev offset request.
  assert (Hold :
            rr_total (read_proc r dev offset request)
            = tlen (buf (rr_ctx (read_proc r dev offset request)))
            /\ forall items, items_of r dev = Some items ->
                 exists n,
                   buf (rr_ctx (read_proc r dev offset request))
                   = concat (firstn n items)
                   /\ writes (rr_ctx (read_proc r dev offset request))
                      = positions 0 (firstn n items)).
  {
    assert (Hgen : r <> R_gem_names ->
              rr_total (read_proc r dev offset request)
              = tlen (buf (rr_ctx (read_proc r dev offset request)))
              /\ forall items, items_of r dev = Some items ->
                   exists n,
                     buf (rr_ctx (read_proc r dev offset request))
                     = concat (firstn n items)
                     /\ writes (rr_ctx (read_proc r dev offset request))
                        = positions 0 (firstn n items)).
    { intros Hr. as_observed.
      rewrite !read_proc_expected by (intros; contradiction).
      unfold expected. destruct (items_of r dev) as [items |].
      - destruct (protocol_shape (limited_at r) (stops_at_limit r) items offset
                    request)
          as (n & H1 & H2 & H3).
        split; [rewrite H2, H1; reflexivity |].
        intros items' E. inversion E; subst. exists n. now rewrite H1, H3.
      - split; [reflexivity | discriminate]. }
    destruct r; try (apply Hgen; discriminate).
    destruct (Z_le_gt_dec offset DRM_PROC_LIMIT) as [Ho | Ho].
    - destruct (gem_names_generated dev offset request Ho) as (H1 & H2 & H3 & _).
      split; [rewrite H2, H1; reflexivity |].
      intros items E. cbn [items_of] in E. inversion E; subst.
      destruct (printed_prefix (map (fun e => gem_row (snd e)) (object_name_idr dev))
                  (tlen gem_header)) as [k Hk].
      exists (S k). rewrite H1, H3, Hk. unfold gem_names_items. split; reflexivity.
    - destruct (beyond_limit_run R_gem_names dev offset request) as (_ & Ht & Hc);
        [lia |].
      rewrite Ht, Hc. split; [reflexivity |].
      intros items _. exists 0%nat. split; reflexivity. }
  destruct Hold as (Hl & Hit). split; [exact Hl |].
  intros items Hi. split; [exact (Hit items Hi) |].
  intros Ho Ht. exact (complete_within_limit r dev offset request items Hi Ho Ht).
Qed.


(** *** What a call returns *)

(** A report whose length is within the limit is served slice by
    slice: a read at an offset inside the report returns the bytes of
    the report from that offset on, as many as were asked for or as
    are left, and signals the end of the report exactly when nothing
    is left after them. *)
Theorem read_returns_slice :
  forall (r : report) (dev : drm_device) (offset request : Z),
    total_length r dev <= DRM_PROC_LIMIT ->
    0 <= offset <= total_length r dev -> 0 <= request ->
    read r dev offset request
    = Data (firstn (Z.to_nat request)
              (skipn (Z.to_nat offset) (buf (rr_ctx (read_proc r dev 0 0)))))
           (negb (total_length r dev >? request + offset)).
Proof.
  intros r dev offset request Hlim Ho Hr.
  assert (Hg : r = R_gem_names -> tlen gem_header <= DRM_PROC_LIMIT).
  { intros ->. now apply (gem_header_within dev). }
  revert Hlim Ho. unfold total_length. as_observed.
  rewrite read_expected, !read_proc_expected by assumption.
  unfold expected. destruct (items_of r dev) as [items |] eqn:Hi.
  2:{ cbn [o_total o_buf]. intros _ Ho.
      assert (offset = 0) by lia. subst. rewrite read_of_nothing. f_equal.
      - rewrite ?skipn_nil, ?firstn_nil. reflexivity.
      - destruct (0 >? request + 0) eqn:E; [lia | reflexivity]. }
  destruct (Z_le_gt_dec 0 DRM_PROC_LIMIT) as [H0 | H0].
  2:{ unfold protocol at 1 2. assert (E : (0 >? DRM_PROC_LIMIT) = true) by lia.
      rewrite E. cbn [o_total]. lia. }
  destruct (protocol_text (limited_at r) (stops_at_limit r) items 0 0 H0)
    as (H1 & H2 & _).
  rewrite H1, H2. intros Hlim Ho.
  pose proof (printed_if_length (limited_at r) items 0 (fun _ => H0)) as HL.
  pose proof (printed_if_all (limited_at r) items 0) as HA.
  assert (Hs : snd (printed_if (limited_at r) 0 items) = false).
  { destruct (snd (printed_if (limited_at r) 0 items)); [| reflexivity].
    destruct HL as [_ HL]. lia. }
  rewrite (HA Hs) in Hlim, Ho |- *.
  assert (Hol : offset <= DRM_PROC_LIMIT) by lia.
  rewrite (protocol_inside _ _ _ _ _ Hs Hol Ho Hr).
  destruct (tlen (concat items) >? request + offset) eqn:En;
    [reflexivity |].
  cbn [negb]. f_equal. symmetry. apply firstn_all2.
  rewrite length_skipn. unfold tlen in *. lia.
Qed.

(** When a call does not signal the end of the report it has returned
    exactly the number of bytes asked for, and more than those are
    left in the report. *)
Theorem more_remains_when_not_at_end :
  forall (r : report) (dev : drm_device) (offset request : Z),
    eof (rr_ctx (read_proc r dev offset request)) = false ->
    rr_ret (read_proc r dev offset request) = request
    /\ request + offset < rr_total (read_proc r dev offset request)
    /\ offset <= DRM_PROC_LIMIT.
Proof.
  intros r dev offset request.
  destruct (Z_le_gt_dec offset DRM_PROC_LIMIT) as [Ho | Ho].
  2:{ destruct (beyond_limit_run r dev offset request) as (_ & _ & Hc);
        [lia |].
      rewrite Hc. discriminate. }
  assert (Hgen : r <> R_gem_names ->
            eof (rr_ctx (read_proc r dev offset request)) = false ->
            rr_ret (read_proc r dev offset request) = request
            /\ request + offset < rr_total (read_proc r dev offset request)
            /\ offset <= DRM_PROC_LIMIT).
  { intros Hr. as_observed.
    rewrite !read_proc_expected by (intros; contradiction).
    unfold expected. destruct (items_of r dev) as [items |]; [| discriminate].
    unfold protocol. destruct (offset >? DRM_PROC_LIMIT); [discriminate |].
    destruct (printed_if (limited_at r) 0 items) as [p o].
    destruct (tlen (concat p) >? request + offset) eqn:En.
    - destruct (stops_at_limit r && o); cbn; [discriminate |].
      intros _. repeat split; lia.
    - rewrite orb_true_r. discriminate. }
  destruct r; try (apply Hgen; discriminate).
  destruct (gem_names_generated dev offset request Ho) as (_ & _ & _ & He & Hr).
  rewrite He, Hr.
  destruct (rr_total (read_proc R_gem_names dev offset request)
            >? request + offset) eqn:En; [| discriminate].
  intros _. repeat split; lia.
Qed.


(** The gem_names callback never returns more than the number of bytes
    asked for. *)
Theorem gem_names_returns_at_most_request :
  forall (dev : drm_device) (offset request : Z),
    0 <= request ->
    rr_ret (read_proc R_gem_names dev offset request) <= request.
Proof.
  intros dev offset request Hr.
  destruct (Z_le_gt_dec offset DRM_PROC_LIMIT) as [Ho | Ho].
  - destruct (gem_names_generated dev offset request Ho) as (_ & _ & _ & _ & H).
    rewrite H.
    destruct (rr_total (read_proc R_gem_names dev offset request)
              >? request + offset) eqn:En; lia.
  - destruct (beyond_limit_run R_gem_names dev offset request) as (H & _);
      [lia |].
    rewrite H. assumption.
Qed.

(** *** Reports of empty collections *)

(** With no mapping, no queue, no client or no named object, the vm,
    queues, clients or gem_names report is its header and nothing
    else, and the queues report has touched no queue. *)
Theorem empty_collection_gives_header :
  forall (dev : drm_device) (offset request : Z),
    offset <= DRM_PROC_LIMIT ->
    (maplist dev = [] ->
     buf (rr_ctx (read_proc R_vm dev offset request)) = vm_header)
    /\ (queuelist dev = [] ->
        buf (rr_ctx (read_proc R_queues dev offset request)) = queues_header
        /\ events (rr_ctx (read_proc R_queues dev offset request)) = [])
    /\ (filelist dev = [] ->
        buf (rr_ctx (read_proc R_clients dev offset request)) = clients_header)
    /\ (object_name_idr dev = [] ->
        buf (rr_ctx (read_proc R_gem_names dev offset request)) = gem_header).
Proof.
  intros dev offset request Ho.
  assert (Hone : forall limited stops (h : text),
            o_buf (protocol limited stops [h] offset request) = h).
  { intros limited stops h.
    destruct (protocol_text limited stops [h] offset request Ho) as (H1 & _).
    rewrite H1, printed_if_cons, printed_if_nil.
    destruct (limited && (0 + tlen h >? DRM_PROC_LIMIT)); cbn [fst concat];
      apply app_nil_r. }
  split; [| split; [| split]].
  - intros Hm. as_observed. rewrite vm_observe.
    unfold vm_items. rewrite Hm. apply Hone.
  - intros Hq. split.
    + as_observed.
      rewrite (proj1 (queues_run dev offset request)).
      unfold queues_items. rewrite Hq. apply Hone.
    + destruct (queues_run dev offset request) as (_ & m & Hm & He & _).
      rewrite He. rewrite Hq in Hm. cbn [length] in Hm.
      assert (m = 0%nat) by lia. subst. reflexivity.
  - intros Hf. as_observed. rewrite clients_observe.
    unfold clients_items. rewrite Hf. apply Hone.
  - intros Hg.
    destruct (gem_names_generated dev offset request Ho) as (H1 & _).
    rewrite H1, Hg. cbn [map printed fst concat]. apply app_nil_r.
Qed.

(** *** The vm report *)

Lemma vm_rows_without_null (l : list drm_map_list) : forall i,
  vm_rows (without_null_maps l) i = vm_rows l i.
Proof.
  induction l as [| r_list l IH]; intros i; [reflexivity |].
  unfold without_null_maps in *. cbn [filter vm_rows]. unfold has_map.
  destruct (r_map r_list) as [map |] eqn:E.
  - cbn [vm_rows]. rewrite E, IH. reflexivity.
  - apply IH.
Qed.

(** Entries of the map list whose map is NULL are passed over and take
    no slot number: the vm report of a device is the report of the
    device without those entries. *)
Theorem vm_report_skips_null_maps :
  forall (dev : drm_device) (offset request : Z),
    observe (read_proc R_vm dev offset request)
    = observe (read_proc R_vm
                 (with_maplist (without_null_maps (maplist dev)) dev)
                 offset request).
Proof.
  intros dev offset request. rewrite !vm_observe.
  unfold vm_items. cbn [maplist with_maplist].
  now rewrite vm_rows_without_null.
Qed.

(** *** The walk of the named objects *)

(** Whatever state the walk starts in, the callback of gem_names never
    stops it: the walk returns 0 and has logged every object of the
    registry, in order.  Over the walk the length in [nid] never
    decreases and the overflow flag is never cleared; after the
    callback has run at least once, the flag is set whenever the
    length has passed the limit. *)
Theorem gem_walk_visits_every_entry :
  forall (l : list (Z * drm_gem_object)) (w : gem_walk),
    fst (idr_for_each l drm_gem_one_name_info w) = 0
    /\ klog (snd (idr_for_each l drm_gem_one_name_info w))
       = klog w ++ map (fun e => gem_info_line (snd e)) l
    /\ nid_len (nid w)
       <= nid_len (nid (snd (idr_for_each l drm_gem_one_name_info w)))
    /\ (nid_eof (nid w) = true ->
        nid_eof (nid (snd (idr_for_each l drm_gem_one_name_info w))) = true)
    /\ (l <> [] ->
        nid_eof (nid (snd (idr_for_each l drm_gem_one_name_info w))) = true
        \/ nid_len (nid (snd (idr_for_each l drm_gem_one_name_info w)))
           <= DRM_PROC_LIMIT).
Proof.
  induction l as [| [id obj] l IH]; intros w.
  - simpl. rewrite app_nil_r.
    split; [reflexivity |]. split; [reflexivity |]. split; [lia |].
    split; [auto | intros H; contradiction].
  - cbn [idr_for_each].
    destruct (drm_gem_one_name_info id obj w) as [r w1] eqn:E1.
    assert (H1 : r = 0
                 /\ klog w1 = klog w ++ [gem_info_line obj]
                 /\ nid_len (nid w) <= nid_len (nid w1)
                 /\ (nid_eof (nid w) = true -> nid_eof (nid w1) = true)
                 /\ (nid_eof (nid w1) = true
                     \/ nid_len (nid w1) <= DRM_PROC_LIMIT)).
    { unfold drm_gem_one_name_info in E1.
      pose proof (tlen_nonneg (gem_row obj)) as Hrow.
      destruct (nid_eof (nid w)) eqn:Ee.
      - inversion E1; subst. cbn [nid klog]. rewrite Ee.
        split; [reflexivity |]. split; [reflexivity |].
        split; [lia |]. split; [reflexivity | left; reflexivity].
      - destruct (nid_len (nid w) + tlen (gem_row obj) >? DRM_PROC_LIMIT) eqn:El;
          inversion E1; subst; cbn [nid klog nid_len nid_eof];
          (split; [reflexivity |]); (split; [reflexivity |]);
          (split; [lia |]); (split; [discriminate |]).
        + left. reflexivity.
        + right. lia. }
    destruct H1 as (-> & Hk & Hlen & Hst & Hinv). cbn [Z.eqb].
    destruct (IH w1) as (I0 & Ik & Ilen & Ist & Iinv).
    split; [exact I0 |]. split.
    { rewrite Ik, Hk. cbn [map]. rewrite <- app_assoc. reflexivity. }
    split; [lia |]. split; [auto |].
    intros _. destruct l as [| e l'].
    + simpl. exact Hinv.
    + apply Iinv. discriminate.
Qed.


(** *** The queues report in full *)

Lemma map_seq_nth {A B} (f : nat -> A -> B) (d : A) (l : list A) : forall s,
  map (fun i => f i (nth (i - s) l d)) (seq s (length l))
  = map (fun ia => f (fst ia) (snd ia)) (combine (seq s (length l)) l).
Proof.
  induction l as [| a l IH]; intros s; [reflexivity |].
  cbn [length seq map combine fst snd]. rewrite Nat.sub_diag. cbn [nth].
  f_equal. rewrite <- IH. apply map_ext_in. intros i Hi. apply in_seq in Hi.
  replace (i - s)%nat with (S (i - S s)) by lia. reflexivity.
Qed.

(** A queues report that ends within the limit is the header followed
    by one row for every queue of the device, in order, and each row
    shows the use count of its queue one higher than it is stored (as
    an int): the report counts itself among the users of the queue. *)
Theorem queues_report_counts_itself :
  forall (dev : drm_device) (offset request : Z),
    offset <= DRM_PROC_LIMIT ->
    rr_total (read_proc R_queues dev offset request) <= DRM_PROC_LIMIT ->
    buf (rr_ctx (read_proc R_queues dev offset request))
    = queues_header
      ++ concat
           (map (fun iq => queues_row (fst iq) (add_use_count 1 (snd iq)))
              (indexed (queuelist dev)))
    /\ forall q, use_count (add_use_count 1 q) = int_wrap (use_count q + 1).
Proof.
  intros dev offset request Ho Ht. split; [| reflexivity].
  rewrite (complete_within_limit R_queues dev offset request
             (queues_items dev) eq_refl Ho Ht).
  unfold queues_items, queues_rows, indexed. cbn [concat]. f_equal. f_equal.
  rewrite <- (map_seq_nth (fun i q => queues_row i (add_use_count 1 q))
                null_queue (queuelist dev) 0).
  apply map_ext. intros i. now rewrite Nat.sub_0_r.
Qed.


(** *** A failure at the first entry *)

(** When create_proc_entry fails for the first entry of the list,
    nothing is registered: drm_proc_init returns -1 with [dev_root]
    NULL, its rollback loop has no turn, the directory is removed
    again, and procfs has the directories (if none of that name was
    there) and the entries it had before. *)
Theorem drm_proc_init_first_entry_fails :
  forall (create_ok : nat -> bool) (minor : drm_minor) (minor_id : Z)
         (fs : proc_fs),
    create_ok 0%nat = false ->
    ~ In (dec minor_id) (dirs fs) ->
    drm_proc_init true create_ok minor minor_id fs
    = (-1, {| minor_index := minor_index minor; dev_root := None |},
       {| dirs := dirs fs; entries := entries fs;
          removals := removals fs ++ [(None, dec minor_id)] |}).
Proof.
  intros create_ok minor minor_id fs H0 Hfresh.
  unfold drm_proc_init. cbn [DRM_PROC_ENTRIES drm_proc_list length seq].
  cbn [proc_init_entries]. rewrite H0. cbn [seq fold_left].
  unfold remove_proc_entry, proc_mkdir. cbn [dirs entries removals minor_index].
  rewrite filter_app. cbn [filter]. rewrite text_eqb_refl. cbn [negb].
  rewrite app_nil_r, filter_all; [reflexivity |].
  intros x Hx. rewrite text_eqb_neq; [reflexivity |].
  intros ->. contradiction.
Qed.


(** *** The buffer list of the bufs report *)

Lemma combine_apps {A B} (l1 l2 : list A) (k1 k2 : list B) :
  length l1 = length k1 ->
  combine (l1 ++ l2) (k1 ++ k2) = combine l1 k1 ++ combine l2 k2.
Proof.
  revert k1. induction l1 as [| a l1 IH]; intros [| b k1] H;
    try discriminate; [reflexivity |].
  cbn. f_equal. apply IH. now injection H.
Qed.

Lemma buffers_inside_line (rest : list Z) (m j : nat) :
  (1 <= j)%nat -> (j + length rest <= 32)%nat ->
  concat (flat_map buffer_item (combine (seq (32 * m + j) (length rest)) rest))
  = buffer_line rest.
Proof.
  revert j. induction rest as [| x rest IH]; intros j H1 H2; [reflexivity |].
  cbn [length seq combine flat_map]. cbn [length] in H2.
  unfold buffer_item at 1. cbn [fst snd].
  assert (E : (Z.of_nat (32 * m + j) mod 32 =? 0) = false).
  { apply Z.eqb_neq.
    replace (Z.of_nat (32 * m + j)) with (Z.of_nat j + Z.of_nat m * 32) by lia.
    rewrite Z_mod_plus_full, Z.mod_small by lia. lia. }
  rewrite E, andb_false_r. cbn [app]. unfold buffer_line. cbn [map concat].
  f_equal. replace (S (32 * m + j)) with (32 * m + S j)%nat by lia.
  apply IH; lia.
Qed.

Lemma buffers_first_line (g : list Z) (m : nat) :
  (length g <= 32)%nat ->
  concat (flat_map buffer_item (combine (seq (32 * m) (length g)) g))
  = (if Nat.eqb m 0 || is_nil g then [] else nl) ++ buffer_line g.
Proof.
  intros Hg. destruct g as [| x g].
  - rewrite orb_true_r. reflexivity.
  - cbn [length seq combine flat_map is_nil]. cbn [length] in Hg.
    rewrite orb_false_r. unfold buffer_item at 1. cbn [fst snd].
    assert (E : (Z.of_nat (32 * m) mod 32 =? 0) = true).
    { apply Z.eqb_eq.
      replace (Z.of_nat (32 * m)) with (0 + Z.of_nat m * 32) by lia.
      now rewrite Z_mod_plus_full. }
    rewrite E, andb_true_r.
    replace (Nat.eqb (32 * m) 0) with (Nat.eqb m 0)
      by (destruct m; reflexivity).
    rewrite concat_app. unfold buffer_line. cbn [map concat].
    replace (S (32 * m)) with (32 * m + 1)%nat by lia.
    rewrite (buffers_inside_line g m 1) by lia.
    unfold buffer_line.
    destruct (Nat.eqb m 0); cbn [negb concat app]; rewrite ?app_nil_r;
      reflexivity.
Qed.

Lemma buffers_in_lines (fuel : nat) :
  forall (l : list Z) (m : nat),
    (length l <= fuel)%nat ->
    concat (flat_map buffer_item (combine (seq (32 * m) (length l)) l))
    = (if Nat.eqb m 0 || is_nil l then [] else nl)
      ++ join_lines (map buffer_line (groups_of fuel 32 l)).
Proof.
  induction fuel as [| fuel IH]; intros l m Hl.
  - destruct l; [| cbn in Hl; lia]. rewrite orb_true_r. reflexivity.
  - destruct l as [| x l']; [rewrite orb_true_r; reflexivity |].
    set (l := x :: l') in *.
    assert (Hne : is_nil l = false) by reflexivity.
    change (groups_of (S fuel) 32 l)
      with (firstn 32 l :: groups_of fuel 32 (skipn 32 l)).
    pose proof (firstn_skipn 32 l) as Hsplit.
    pose proof (firstn_length_le l (n := 32)) as Hfull.
    pose proof (firstn_le_length 32 l) as Hle.
    pose proof (length_skipn 32 l) as Hsk.
    assert (Hlen : length l = (length (firstn 32 l) + length (skipn 32 l))%nat).
    { rewrite <- length_app, Hsplit. reflexivity. }
    assert (Hg : (length (firstn 32 l) <= 32)%nat)
      by (rewrite length_firstn; lia).
    assert (Hpos : (0 < length l)%nat) by (cbn; lia).
    rewrite Hlen at 1. rewrite <- Hsplit at 3.
    rewrite seq_app, combine_apps by (now rewrite length_seq).
    rewrite flat_map_app, concat_app.
    rewrite (buffers_first_line (firstn 32 l) m Hg).
    assert (Hfn : is_nil (firstn 32 l) = false) by reflexivity.
    rewrite Hfn, Hne. rewrite <- app_assoc. f_equal.
    destruct (skipn 32 l) as [| y t] eqn:Et.
    + cbn [length seq combine flat_map concat map join_lines].
      destruct fuel; cbn [groups_of map]; now rewrite app_nil_r.
    + assert (H32 : length (firstn 32 l) = 32%nat).
      { rewrite length_firstn. cbn [length] in Hsk. lia. }
      rewrite H32.
      replace (32 * m + 32)%nat with (32 * S m)%nat by lia.
      rewrite (IH (y :: t) (S m)) by (cbn [length] in *; lia).
      cbn [Nat.eqb is_nil orb map].
      assert (Hf : exists f', fuel = S f').
      { destruct fuel; [cbn [length] in *; lia | eauto]. }
      destruct Hf as [f' ->].
      cbn [groups_of map join_lines]. reflexivity.
Qed.

Lemma groups_of_concat (fuel : nat) :
  forall l : list Z,
    (length l <= fuel)%nat ->
    concat (groups_of fuel 32 l) = l
    /\ Forall (fun g => (0 < length g <= 32)%nat) (groups_of fuel 32 l).
Proof.
  induction fuel as [| fuel IH]; intros l Hl.
  - destruct l; [split; [reflexivity | constructor] | cbn in Hl; lia].
  - destruct l as [| x l']; [split; [reflexivity | constructor] |].
    set (l := x :: l') in *.
    change (groups_of (S fuel) 32 l)
      with (firstn 32 l :: groups_of fuel 32 (skipn 32 l)).
    pose proof (length_skipn 32 l) as Hsk.
    destruct (IH (skipn 32 l)) as [Hc Hf].
    { rewrite Hsk. cbn [length] in *. lia. }
    split.
    + cbn [concat]. rewrite Hc. apply firstn_skipn.
    + constructor; [| exact Hf]. rewrite length_firstn. subst l.
      cbn [length]. lia.
Qed.

(** In a bufs report that ends within the limit the list of buffers
    is printed in lines of 32: the buffers of the device are cut into
    groups of 32 (the last one may be shorter), every group is one
    line of [" %d"] fields, and there is a line break between every
    two lines and after the last one. *)
Theorem bufs_list_in_lines_of_32 :
  forall (dev : drm_device) (d : drm_device_dma) (offset request : Z),
    dma dev = Some d ->
    offset <= DRM_PROC_LIMIT ->
    rr_total (read_proc R_bufs dev offset request) <= DRM_PROC_LIMIT ->
    let lines := groups_of (length (buflist d)) 32 (buflist d) in
    buf (rr_ctx (read_proc R_bufs dev offset request))
    = bufs_header ++ concat (bufs_rows d) ++ nl
      ++ join_lines (map buffer_line lines) ++ nl
    /\ concat lines = buflist d
    /\ Forall (fun g => (0 < length g <= 32)%nat) lines.
Proof.
  intros dev d offset request Hd Ho Ht lines.
  destruct (groups_of_concat (length (buflist d)) (buflist d) (le_n _))
    as [Hc Hf].
  split; [| split; assumption].
  rewrite (complete_within_limit R_bufs dev offset request (bufs_items d))
    by (try assumption; cbn [items_of]; now rewrite Hd).
  unfold bufs_items. rewrite !concat_app. cbn [concat]. rewrite !app_nil_r.
  do 3 f_equal.
  pose proof (buffers_in_lines (length (buflist d)) (buflist d) 0 (le_n _)) as H.
  rewrite Nat.mul_0_r in H. f_equal. exact H.
Qed.


(** *** Reports built in full *)






End DrmProc.

(** ** The properties at concrete values

    Below, the page shift is 12 (pages of 4096 bytes), a long has 64
    bits unless said otherwise, the limit of the reports is 4016
    bytes, 80 bytes short of a page, and the largest order is 22.  The
    last of the five parameters says whether the macros return from
    the callback once the limit is passed. *)

(** *** Registration *)

(** C1.  When create_proc_entry fails for entry [n] of the list
    (n = 1, ..., 8), drm_proc_init returns -1, clears [dev_root] and
    removes the directory, but its rollback loop names entry [n]
    itself in each of its [n] turns: the [n] entries registered before
    are all still there, and drm_proc_cleanup, finding [dev_root]
    cleared, returns without removing them. *)
Theorem proc_init_rollback_leaves_entries :
  Forall
    (fun n =>
       let '(ret, minor, fs) :=
         drm_proc_init true (fails_at n) minor0 0 empty_fs in
       ret = -1
       /\ dev_root minor = None
       /\ dirs fs = []
       /\ entries fs = map (fun i => (lit "0", entry_name i)) (seq 0 n)
       /\ removals fs
          = repeat (Some (lit "0"), entry_name n) n ++ [(None, lit "0")]
       /\ drm_proc_cleanup minor true fs = (0, fs))
    (seq 1 8).
Proof.
  repeat (constructor; [vm_compute; repeat split; reflexivity |]).
  constructor.
Qed.

(** *** Reading past the end *)

(** C2.  The name report of the sample device is 35 bytes long.  Asked
    for 10 bytes at offset 40, which is within the limit, the callback
    signals the end of the report but returns 35 - 40 = -5, not 0: the
    reader gets an error code instead of zero bytes.  What the macros
    do at the limit plays no part in it. *)
Theorem name_read_past_end_is_negative :
  forall macros_return : bool,
    total_length 12 64 4016 22 macros_return R_name demo_dev = 35
    /\ rr_ret (read_proc 12 64 4016 22 macros_return R_name demo_dev 40 10) = -5
    /\ eof (rr_ctx (read_proc 12 64 4016 22 macros_return R_name demo_dev 40 10))
       = true
    /\ read 12 64 4016 22 macros_return R_name demo_dev 40 10 = Fault (-5).
Proof. intros []; vm_compute; repeat split; reflexivity. Qed.

(** *** Chunked reading *)

(** With 121 named objects the gem_names report is 4026 bytes long.
    Read in chunks of 4017 bytes, the second call finds its offset
    beyond the limit and ends the report: the reader has 4017 bytes,
    whatever the number of calls it is allowed, and never the 4026 of a
    single read. *)
Lemma chunked_gem_names_read_loses_bytes :
  ~ (exists fuel,
       read_chunks 12 64 4016 22 false fuel R_gem_names gem121_dev 4017 0
       = read_whole 12 64 4016 22 false R_gem_names gem121_dev)
  /\ ~ (exists fuel,
          read_chunks 12 64 4016 22 true fuel R_gem_names gem121_dev 4017 0
          = read_whole 12 64 4016 22 true R_gem_names gem121_dev).
Proof.
  split; intros [fuel H];
    apply (f_equal (option_map (@length ascii))) in H;
    destruct fuel as [| [| fuel]]; vm_compute in H; discriminate H.
Qed.

Lemma chunked_read_witness :
  1 <= 7
  /\ total_length 12 64 4016 22 false R_vm demo_dev <= 4016
  /\ (Z.to_nat (total_length 12 64 4016 22 false R_vm demo_dev) < 200)%nat
  /\ read_chunks 12 64 4016 22 false 200 R_vm demo_dev 7 0
     = read_whole 12 64 4016 22 false R_vm demo_dev.
Proof.
  assert (H1 : 1 <= 7) by lia.
  assert (H2 : total_length 12 64 4016 22 false R_vm demo_dev <= 4016)
    by (vm_compute; discriminate).
  assert (H3 : (Z.to_nat (total_length 12 64 4016 22 false R_vm demo_dev)
                < 200)%nat)
    by (apply Nat.ltb_lt; vm_compute; reflexivity).
  split; [exact H1 | split; [exact H2 | split; [exact H3 |]]].
  apply (chunked_read_is_whole_read 12 64 4016 22 false R_vm demo_dev 7 200
           H1 H2 H3).
Defined.

(** *** The gem_names report at the limit *)

Lemma gem_names_stops_appending_witness :
  tlen gem_header <= 4016
  /\ exists w1,
       nid_eof (nid w1) = true
       /\ gem_name_walk 64 4016
            (demo_with None None
               (map gem_object_n (seq 1 121) ++ map gem_object_n (seq 122 2)) 5)
            (fresh_ctx []) []
          = (0, {| nid := nid w1; ctx := ctx w1;
                   klog :=
                     [] ++ map (fun e => gem_info_line 64 (snd e))
                             (map gem_object_n (seq 1 121)
                              ++ map gem_object_n (seq 122 2)) |}).
Proof.
  assert (H1 : tlen gem_header <= 4016) by (vm_compute; discriminate).
  assert (H2 : 4016
               < nid_len
                   (nid (snd (idr_for_each (map gem_object_n (seq 1 121))
                                (drm_gem_one_name_info 64 4016)
                                {| nid := {| nid_len := tlen gem_header;
                                             nid_eof := false |};
                                   ctx := sprintf_at 0 gem_header (fresh_ctx []);
                                   klog := [] |}))))
    by (vm_compute; reflexivity).
  split; [exact H1 |].
  destruct (gem_names_stops_appending 64 4016
              (demo_with None None
                 (map gem_object_n (seq 1 121) ++ map gem_object_n (seq 122 2)) 5)
              (map gem_object_n (seq 1 121)) (map gem_object_n (seq 122 2))
              (fresh_ctx []) [] H1 eq_refl H2)
    as (w1 & _ & He & Hw & _).
  exists w1. split; assumption.
Defined.

(** *** Lengths and writes against the limit *)

(** The 4026 bytes of the gem_names report with 121 named objects are
    more than the limit of 4016. *)
Lemma gem_names_length_passes_limit :
  ~ (rr_total (read_proc 12 64 4016 22 false R_gem_names gem121_dev 0 100)
     <= 4016)
  /\ ~ (rr_total (read_proc 12 64 4016 22 true R_gem_names gem121_dev 0 100)
        <= 4016).
Proof. split; vm_compute; intros H; apply H; reflexivity. Qed.

Lemma length_within_limit_witness :
  tlen gem_header <= 4016
  /\ Forall (fun w => fst w <= 4016)
       (writes (rr_ctx (read_proc 12 64 4016 22 false R_gem_names
                          gem121_dev 0 100))).
Proof.
  assert (H : tlen gem_header <= 4016) by (vm_compute; discriminate).
  split; [exact H |].
  apply (length_within_limit_before_each_append 12 64 4016 22 false
           gem121_dev 0 100 H).
Defined.



(** *** The objects report *)

Lemma objects_used_memory_witness :
  0 <= 12 /\ 5 <= 64
  /\ buf (rr_ctx (read_proc 12 64 4016 22 false R_objects demo_dev 0 1000))
     = concat (objects_before 64 demo_dev)
       ++ used_memory_line 12 64 (lit "Used object memory") []
            (used_mem (memctl demo_dev))
       ++ used_memory_line 12 64 (lit "Used emergency memory") nl
            (used_emer (memctl demo_dev))
       ++ concat (objects_after 12 64 demo_dev).
Proof.
  assert (H1 : 0 <= 12) by lia.
  assert (H2 : 5 <= 64) by lia.
  split; [exact H1 | split; [exact H2 |]].
  destruct (objects_used_memory_rendering 12 64 4016 22 false demo_dev 0 1000
              H1 H2)
    as (_ & Hbuf & _).
  apply Hbuf; vm_compute; discriminate.
Defined.

(** *** The bufs report *)

(** With a long of 32 bits, 2^20 segments of one page each make a
    product of 2^32 bytes, which wraps to 0: the kB column shows 0
    where the formula gives 4194304. *)
Lemma bufs_kb_wraps_around :
  ~ (forall e : drm_buf_entry,
       buf_count e <> 0 ->
       bufs_kb 12 32 e = seg_count e * 2 ^ page_order e * PAGE_SIZE 12 / 1024).
Proof.
  intros H. specialize (H wide_entry). vm_compute in H.
  assert (E : 0 = 4194304) by (apply H; discriminate).
  discriminate E.
Qed.

Lemma bufs_columns_witness :
  0 <= 12 /\ 0 < 64 /\ fits 12 64 demo_entry
  /\ bufs_pages demo_entry = seg_count demo_entry * 2 ^ page_order demo_entry
  /\ bufs_kb 12 64 demo_entry
     = seg_count demo_entry * 2 ^ page_order demo_entry * PAGE_SIZE 12 / 1024.
Proof.
  assert (H1 : 0 <= 12) by lia.
  assert (H2 : 0 < 64) by lia.
  assert (H3 : fits 12 64 demo_entry).
  { unfold fits. vm_compute. repeat split; discriminate || reflexivity. }
  split; [exact H1 | split; [exact H2 | split; [exact H3 |]]].
  destruct (bufs_rows_and_columns 12 64 4016 22 false demo_dev demo_dma 0 1000
              eq_refl)
    as (_ & _ & _ & Hcol).
  apply Hcol; assumption.
Defined.

(** *** The queues report *)


(** *** The bufs report without DMA structure *)

Lemma bufs_without_dma_witness :
  dma gem121_dev = None
  /\ read 12 64 4016 22 false R_bufs gem121_dev 0 100 = Data [] true.
Proof.
  split; [reflexivity |].
  apply (bufs_without_dma_is_empty 12 64 4016 22 false gem121_dev 0 100 eq_refl).
Defined.

(** ** Instances of the further properties *)

Lemma drm_proc_init_registers_all_witness :
  (forall i, (i < DRM_PROC_ENTRIES)%nat -> (fun _ : nat => true) i = true)
  /\ fst (fst (drm_proc_init true (fun _ => true) minor0 0 empty_fs)) = 0.
Proof.
  assert (H : forall i, (i < DRM_PROC_ENTRIES)%nat
                        -> (fun _ : nat => true) i = true)
    by (intros; reflexivity).
  split; [exact H |].
  destruct (drm_proc_init_registers_all (fun _ => true) minor0 0 empty_fs H)
    as (Hr & _).
  exact Hr.
Defined.

Lemma drm_proc_init_then_cleanup_witness :
  ~ In (dec (minor_index minor0)) (dirs empty_fs)
  /\ entries (snd (drm_proc_cleanup
                     (snd (fst (drm_proc_init true (fun _ => true) minor0
                                  (minor_index minor0) empty_fs)))
                     true
                     (snd (drm_proc_init true (fun _ => true) minor0
                             (minor_index minor0) empty_fs))))
     = entries empty_fs.
Proof.
  assert (H1 : forall i, (i < DRM_PROC_ENTRIES)%nat
                         -> (fun _ : nat => true) i = true)
    by (intros; reflexivity).
  assert (H2 : ~ In (dec (minor_index minor0)) (dirs empty_fs))
    by (intros H; exact H).
  assert (H3 : forall e, In e (entries empty_fs)
                         -> fst e <> dec (minor_index minor0))
    by (intros e H; destruct H).
  split; [exact H2 |].
  destruct (drm_proc_init_then_cleanup (fun _ => true) minor0 empty_fs H1 H2 H3)
    as (_ & _ & He).
  exact He.
Defined.

Lemma drm_proc_init_first_entry_fails_witness :
  fails_at 0 0%nat = false
  /\ ~ In (dec 0) (dirs empty_fs)
  /\ fst (fst (drm_proc_init true (fails_at 0) minor0 0 empty_fs)) = -1.
Proof.
  assert (H1 : fails_at 0 0%nat = false) by reflexivity.
  assert (H2 : ~ In (dec 0) (dirs empty_fs)) by (intros H; exact H).
  split; [exact H1 | split; [exact H2 |]].
  rewrite (drm_proc_init_first_entry_fails (fails_at 0) minor0 0 empty_fs H1 H2).
  reflexivity.
Defined.

Lemma read_beyond_limit_witness :
  4016 < 5000 /\ read 12 64 4016 22 false R_vm demo_dev 5000 10 = Data [] true.
Proof.
  assert (H : 4016 < 5000) by lia.
  split; [exact H |].
  destruct (read_beyond_limit 12 64 4016 22 false R_vm demo_dev 5000 10 H)
    as (_ & _ & _ & Hr).
  exact Hr.
Defined.

Lemma regenerated_whatever_the_offset_witness :
  0 <= 4016 /\ 10 <= 4016
  /\ buf (rr_ctx (read_proc 12 64 4016 22 false R_clients demo_dev 0 100))
     = buf (rr_ctx (read_proc 12 64 4016 22 false R_clients demo_dev 10 7)).
Proof.
  assert (H1 : 0 <= 4016) by lia.
  assert (H2 : 10 <= 4016) by lia.
  split; [exact H1 | split; [exact H2 |]].
  destruct (regenerated_whatever_the_offset 12 64 4016 22 false R_clients
              demo_dev 0 100 10 7 H1 H2) as (Hb & _).
  exact Hb.
Defined.

Lemma read_returns_slice_witness :
  total_length 12 64 4016 22 false R_name demo_dev <= 4016
  /\ 0 <= 10 <= total_length 12 64 4016 22 false R_name demo_dev
  /\ 0 <= 5
  /\ read 12 64 4016 22 false R_name demo_dev 10 5
     = Data (firstn (Z.to_nat 5)
               (skipn (Z.to_nat 10)
                  (buf (rr_ctx (read_proc 12 64 4016 22 false R_name
                                  demo_dev 0 0)))))
            (negb (total_length 12 64 4016 22 false R_name demo_dev >? 5 + 10)).
Proof.
  assert (H1 : total_length 12 64 4016 22 false R_name demo_dev <= 4016)
    by (vm_compute; discriminate).
  assert (H2 : 0 <= 10 <= total_length 12 64 4016 22 false R_name demo_dev)
    by (vm_compute; split; discriminate).
  assert (H3 : 0 <= 5) by lia.
  split; [exact H1 | split; [exact H2 | split; [exact H3 |]]].
  exact (read_returns_slice 12 64 4016 22 false R_name demo_dev 10 5 H1 H2 H3).
Defined.

Lemma more_remains_when_not_at_end_witness :
  eof (rr_ctx (read_proc 12 64 4016 22 false R_name demo_dev 0 5)) = false
  /\ rr_ret (read_proc 12 64 4016 22 false R_name demo_dev 0 5) = 5.
Proof.
  assert (H : eof (rr_ctx (read_proc 12 64 4016 22 false R_name demo_dev 0 5))
              = false)
    by (vm_compute; reflexivity).
  split; [exact H |].
  destruct (more_remains_when_not_at_end 12 64 4016 22 false R_name demo_dev
              0 5 H)
    as (Hr & _).
  exact Hr.
Defined.

Lemma gem_names_returns_at_most_request_witness :
  0 <= 10
  /\ rr_ret (read_proc 12 64 4016 22 false R_gem_names demo_dev 0 10) <= 10.
Proof.
  assert (H : 0 <= 10) by lia.
  split; [exact H |].
  exact (gem_names_returns_at_most_request 12 64 4016 22 false demo_dev 0 10 H).
Defined.

Lemma empty_collection_gives_header_witness :
  0 <= 4016
  /\ object_name_idr long_unique_dev = []
  /\ buf (rr_ctx (read_proc 12 64 4016 22 false R_gem_names long_unique_dev
                    0 100))
     = gem_header.
Proof.
  assert (H1 : 0 <= 4016) by lia.
  assert (H2 : object_name_idr long_unique_dev = []) by reflexivity.
  split; [exact H1 | split; [exact H2 |]].
  destruct (empty_collection_gives_header 12 64 4016 22 false long_unique_dev
              0 100 H1)
    as (_ & _ & _ & Hg).
  exact (Hg H2).
Defined.

Lemma queues_report_counts_itself_witness :
  0 <= 4016
  /\ rr_total (read_proc 12 64 4016 22 false R_queues demo_dev 0 100) <= 4016
  /\ buf (rr_ctx (read_proc 12 64 4016 22 false R_queues demo_dev 0 100))
     = queues_header
       ++ concat
            (map (fun iq => queues_row (fst iq) (add_use_count 1 (snd iq)))
               (indexed (queuelist demo_dev))).
Proof.
  assert (H1 : 0 <= 4016) by lia.
  assert (H2 : rr_total (read_proc 12 64 4016 22 false R_queues demo_dev 0 100)
               <= 4016)
    by (vm_compute; discriminate).
  split; [exact H1 | split; [exact H2 |]].
  destruct (queues_report_counts_itself 12 64 4016 22 false demo_dev 0 100
              H1 H2)
    as (Hb & _).
  exact Hb.
Defined.

(** Asked for 10 bytes at offset 40 of its 35 bytes, the name report
    returns 35 - 40. *)
Lemma read_past_end_witness :
  40 <= 4016 /\ 0 <= 10
  /\ rr_total (read_proc 12 64 4016 22 false R_name demo_dev 40 10) <= 40
  /\ eof (rr_ctx (read_proc 12 64 4016 22 false R_name demo_dev 40 10)) = true
  /\ rr_ret (read_proc 12 64 4016 22 false R_name demo_dev 40 10)
     = rr_total (read_proc 12 64 4016 22 false R_name demo_dev 40 10) - 40.
Proof.
  assert (H0 : R_name = R_gem_names -> tlen gem_header <= 4016)
    by (intros e; discriminate e).
  assert (H1 : 40 <= 4016) by lia.
  assert (H2 : 0 <= 10) by lia.
  assert (H3 : rr_total (read_proc 12 64 4016 22 false R_name demo_dev 40 10)
               <= 40)
    by (vm_compute; discriminate).
  assert (H4 : R_name = R_bufs -> dma demo_dev <> None)
    by (intros e; discriminate e).
  split; [exact H1 | split; [exact H2 | split; [exact H3 |]]].
  destruct (read_past_end 12 64 4016 22 false R_name demo_dev 40 10
              H0 H1 H2 H3) as (He & _ & Hr).
  split; [exact He | exact (Hr H4)].
Defined.

Lemma bufs_list_in_lines_witness :
  dma demo_dev = Some demo_dma
  /\ 0 <= 4016
  /\ rr_total (read_proc 12 64 4016 22 false R_bufs demo_dev 0 1000) <= 4016
  /\ concat (groups_of (length (buflist demo_dma)) 32 (buflist demo_dma))
     = buflist demo_dma.
Proof.
  assert (H1 : dma demo_dev = Some demo_dma) by reflexivity.
  assert (H2 : 0 <= 4016) by lia.
  assert (H3 : rr_total (read_proc 12 64 4016 22 false R_bufs demo_dev 0 1000)
               <= 4016)
    by (vm_compute; discriminate).
  split; [exact H1 | split; [exact H2 | split; [exact H3 |]]].
  destruct (bufs_list_in_lines_of_32 12 64 4016 22 false demo_dev demo_dma
              0 1000 H1 H2 H3) as (_ & Hc & _).
  exact Hc.
Defined.
